(** * anygroup: an inventory of the declarations of Go source files

    A shallow embedding of [anygroup.go]: the part of [go/ast] the program
    inspects, the three signature renderers, the per-file deduplicating
    printer and the directory run, followed by the properties of the
    report they produce. *)

From stdpp Require Import gmap strings list.
From Stdlib Require Import Ascii.

Local Open Scope stdpp_scope.

(** ** The [strings] and [fmt] helpers the program calls *)

Module strings.

(** [strings.Join]: the elements with [sep] between each two. *)
Fixpoint Join (elems : list string) (sep : string) : string :=
  match elems with
  | [] => ""
  | e :: rest =>
      match rest with
      | [] => e
      | _ :: _ => e +:+ sep +:+ Join rest sep
      end
  end.

Definition HasPrefix (s pre : string) : bool := String.prefix pre s.

Definition HasSuffix (s suf : string) : bool :=
  let n := String.length s in
  let k := String.length suf in
  if decide (k ≤ n) then String.eqb (String.substring (n - k) k s) suf
  else false.

Definition TrimPrefix (s pre : string) : string :=
  if HasPrefix s pre
  then String.substring (String.length pre)
                        (String.length s - String.length pre) s
  else s.

Definition TrimSuffix (s suf : string) : string :=
  if HasSuffix s suf
  then String.substring 0 (String.length s - String.length suf) s
  else s.

End strings.

(** ** The syntax tree

    The node kinds of [go/ast] that reach the program: whole files,
    function declarations, general declarations with their specs, and
    enough expressions and statements to nest a declaration inside a
    function body or a function literal.  An [*ast.Ident] in a name
    position is kept as its [Name]; a [*ast.FieldList] as its [List]; a
    [*ast.BlockStmt] body as its [List]; a pointer that may be nil as an
    [option]. *)

Inductive Token : Type := IMPORT | CONST | TYPE | VAR.

#[global] Instance Token_eq_dec : EqDecision Token.
Proof. solve_decision. Defined.

#[local] Set Warnings "-register-all".

Inductive Expr : Type :=
| Ident (Name : string)
| BasicLit (Value : string)
| StarExpr (X : Expr)
| CallExpr (Fun : Expr) (Args : list Expr)
| StructType (Fields : list Field)
| FuncLit (Type_ : FuncType) (Body : list Stmt)
with Field : Type :=
| mkField (Names : list string) (Type_ : option Expr)
with FuncType : Type :=
| mkFuncType (Params : list Field) (Results : option (list Field))
with Stmt : Type :=
| DeclStmt (Decl : GenDecl)
| ExprStmt (X : Expr)
| ReturnStmt (Results : list Expr)
| BlockStmt (List : list Stmt)
with Spec : Type :=
| ImportSpec (Path : string)
| ValueSpec (Names : list string) (Type_ : option Expr) (Values : list Expr)
| TypeSpec (Name : string) (Type_ : Expr)
with GenDecl : Type :=
| mkGenDecl (Tok : Token) (Specs : list Spec).

Definition Field_Names (f : Field) : list string :=
  match f with mkField names _ => names end.
Definition Field_Type (f : Field) : option Expr :=
  match f with mkField _ t => t end.
Definition FuncType_Params (t : FuncType) : list Field :=
  match t with mkFuncType params _ => params end.
Definition FuncType_Results (t : FuncType) : option (list Field) :=
  match t with mkFuncType _ results => results end.
Definition GenDecl_Tok (d : GenDecl) : Token :=
  match d with mkGenDecl tok _ => tok end.
Definition GenDecl_Specs (d : GenDecl) : list Spec :=
  match d with mkGenDecl _ specs => specs end.

Record FuncDecl : Type := mkFuncDecl {
  Recv : option (list Field);
  Name : string;
  Type_ : FuncType;
  Body : option (list Stmt)
}.

Inductive Decl : Type :=
| Decl_Func (fn : FuncDecl)
| Decl_Gen (d : GenDecl).

Record File : Type := mkFile {
  Package : string;
  Decls : list Decl
}.

(** What [ast.Inspect] hands to its callback: a node of one of the kinds
    above, or nil once the children of a node are done. *)
Inductive Node : Type :=
| Node_nil
| Node_File (f : File)
| Node_FuncDecl (fn : FuncDecl)
| Node_GenDecl (d : GenDecl)
| Node_Spec (s : Spec)
| Node_Stmt (s : Stmt)
| Node_Expr (e : Expr)
| Node_Field (f : Field)
| Node_FieldList (l : list Field)
| Node_FuncType (t : FuncType).

(** ** The signature renderers *)

(** [fmt.Sprintf("%s(%s) %s", ...)] over the name, the parameter names
    and the results whose type is a plain identifier. *)
Definition getFunctionSignature (fn : FuncDecl) : string :=
  let funcName := Name fn in
  let params :=
    foldl (fun params param =>
             foldl (fun params name => params ++ [name]) params
                   (Field_Names param))
          [] (FuncType_Params (Type_ fn)) in
  let results :=
    match FuncType_Results (Type_ fn) with
    | Some List =>
        foldl (fun results result =>
                 match Field_Type result with
                 | Some (Ident name) => results ++ [name]
                 | _ => results
                 end)
              [] List
    | None => []
    end in
  funcName +:+ "(" +:+ strings.Join params ", " +:+ ") "
           +:+ strings.Join results ", ".

Definition getStructDefinition (structName : string) (st : list Field)
  : string :=
  let fields :=
    foldl (fun fields field =>
             foldl (fun fields name => fields ++ [name]) fields
                   (Field_Names field))
          [] st in
  "type " +:+ structName +:+ " struct { " +:+ strings.Join fields ", "
          +:+ " }".

Definition removeTokenInfo (s : string) : string :=
  strings.TrimPrefix (strings.TrimSuffix s ">") "%!s(".

Section Renderers.

(** [fmt.Sprint] of a type expression and [fmt.Sprintf("%#v", ...)] of
    the initialisers print the parser's nodes, pointers included; the
    text is whatever the formatter gives. *)
Variable Sprint : Expr -> string.
Variable SprintGoSyntax : list Expr -> string.

Definition getVariableDefinition
    (Names : list string) (Type_ : option Expr) (Values : list Expr)
  : string :=
  let variables := foldl (fun variables name => variables ++ [name]) [] Names in
  if decide (length variables = 0) then ""
  else
    let typeStr :=
      match Type_ with
      | Some t => removeTokenInfo (Sprint t)
      | None => ""
      end in
    let valueStr :=
      if decide (0 < length Values) then SprintGoSyntax Values else "" in
    "var " +:+ strings.Join variables ", " +:+ " " +:+ typeStr +:+ " "
           +:+ valueStr.

End Renderers.

(** ** [ast.Inspect]

    Depth-first: the callback gets the node; when it answers true the
    children follow in the order [ast.Walk] takes them, and then the
    callback gets nil.  The callback here is a closure over the state it
    changes, so the state is passed through. *)

Section Inspect.

Context {State : Type}.
Variable f : Node -> State -> State * bool.

Definition visit (n : Node) (children : State -> State) (st : State) : State :=
  let (st1, descend) := f n st in
  if descend then fst (f Node_nil (children st1)) else st1.

Definition walkIdent (name : string) (st : State) : State :=
  visit (Node_Expr (Ident name)) (fun st => st) st.

Fixpoint Inspect_Expr (e : Expr) (st : State) : State :=
  visit (Node_Expr e)
    (fun st =>
       match e with
       | Ident _ => st
       | BasicLit _ => st
       | StarExpr X => Inspect_Expr X st
       | CallExpr Fun Args =>
           foldl (fun st a => Inspect_Expr a st) (Inspect_Expr Fun st) Args
       | StructType Fields =>
           visit (Node_FieldList Fields)
             (fun st => foldl (fun st fd => Inspect_Field fd st) st Fields) st
       | FuncLit t body =>
           visit (Node_Stmt (BlockStmt body))
             (fun st => foldl (fun st s => Inspect_Stmt s st) st body)
             (Inspect_FuncType t st)
       end) st
with Inspect_Field (fd : Field) (st : State) : State :=
  visit (Node_Field fd)
    (fun st =>
       match fd with
       | mkField names t =>
           let st := foldl (fun st n => walkIdent n st) st names in
           match t with
           | Some t => Inspect_Expr t st
           | None => st
           end
       end) st
with Inspect_FuncType (t : FuncType) (st : State) : State :=
  visit (Node_FuncType t)
    (fun st =>
       match t with
       | mkFuncType params results =>
           let st :=
             visit (Node_FieldList params)
               (fun st => foldl (fun st fd => Inspect_Field fd st) st params)
               st in
           match results with
           | Some results =>
               visit (Node_FieldList results)
                 (fun st =>
                    foldl (fun st fd => Inspect_Field fd st) st results) st
           | None => st
           end
       end) st
with Inspect_Stmt (s : Stmt) (st : State) : State :=
  visit (Node_Stmt s)
    (fun st =>
       match s with
       | DeclStmt d => Inspect_GenDecl d st
       | ExprStmt X => Inspect_Expr X st
       | ReturnStmt results =>
           foldl (fun st e => Inspect_Expr e st) st results
       | BlockStmt l => foldl (fun st s => Inspect_Stmt s st) st l
       end) st
with Inspect_Spec (sp : Spec) (st : State) : State :=
  visit (Node_Spec sp)
    (fun st =>
       match sp with
       | ImportSpec path => visit (Node_Expr (BasicLit path)) (fun st => st) st
       | ValueSpec names t values =>
           let st := foldl (fun st n => walkIdent n st) st names in
           let st := match t with
                     | Some t => Inspect_Expr t st
                     | None => st
                     end in
           foldl (fun st e => Inspect_Expr e st) st values
       | TypeSpec name t => Inspect_Expr t (walkIdent name st)
       end) st
with Inspect_GenDecl (d : GenDecl) (st : State) : State :=
  visit (Node_GenDecl d)
    (fun st =>
       match d with
       | mkGenDecl _ specs => foldl (fun st sp => Inspect_Spec sp st) st specs
       end) st.

Definition Inspect_FuncDecl (fn : FuncDecl) (st : State) : State :=
  visit (Node_FuncDecl fn)
    (fun st =>
       let st := match Recv fn with
                 | Some recv =>
                     visit (Node_FieldList recv)
                       (fun st =>
                          foldl (fun st fd => Inspect_Field fd st) st recv) st
                 | None => st
                 end in
       let st := walkIdent (Name fn) st in
       let st := Inspect_FuncType (Type_ fn) st in
       match Body fn with
       | Some body =>
           visit (Node_Stmt (BlockStmt body))
             (fun st => foldl (fun st s => Inspect_Stmt s st) st body) st
       | None => st
       end) st.

Definition Inspect_Decl (d : Decl) (st : State) : State :=
  match d with
  | Decl_Func fn => Inspect_FuncDecl fn st
  | Decl_Gen d => Inspect_GenDecl d st
  end.

Definition Inspect (file : File) (st : State) : State :=
  visit (Node_File file)
    (fun st =>
       foldl (fun st d => Inspect_Decl d st) (walkIdent (Package file) st)
             (Decls file)) st.

End Inspect.


(** ** The report and the per-file printer *)

(** The two streams of the process.  [fmt.Printf] and [fmt.Println]
    append to the first; each element is the text of one call. *)
Record Output : Type := mkOutput {
  stdout : list string;
  stderr : list string
}.

Definition newline : string := String "010"%char "".

Definition Printf (text : string) (w : Output) : Output :=
  {| stdout := stdout w ++ [text]; stderr := stderr w |}.

Definition Println (text : string) (w : Output) : Output :=
  Printf (text +:+ newline) w.

(** The text of [fmt.Printf("%s: %s\n", filename, s)]. *)
Definition line (filename s : string) : string :=
  filename +:+ ": " +:+ s +:+ newline.

(** What the closures of [parseFile] share: the [processed] map and the
    stream they print to. *)
Record Printer : Type := mkPrinter {
  processed : gmap string bool;
  out : Output
}.

(** Reading a Go map at a missing key gives the zero value. *)
Definition mapIndex (m : gmap string bool) (s : string) : bool :=
  default false (m !! s).

Definition processIfNotProcessed (filename s : string) (p : Printer)
  : Printer :=
  if negb (mapIndex (processed p) s)
  then {| processed := <[s := true]> (processed p);
          out := Printf (line filename s) (out p) |}
  else p.

(** One call of the function given to [filepath.Walk]: the path, the
    entry's name and kind, and the error of reaching it, if any. *)
Record WalkEntry : Type := mkWalkEntry {
  path : string;
  info_Name : string;
  info_IsDir : bool;
  err : option string
}.

(** [filepath.Walk] over the entries under the root, in its order: the
    function is called on each, and the first error it returns ends the
    walk and is the walk's error. *)
Fixpoint Walk (entries : list WalkEntry)
    (fn : WalkEntry -> Output -> Output * option string) (w : Output)
  : Output * option string :=
  match entries with
  | [] => (w, None)
  | e :: rest =>
      match fn e w with
      | (w', Some failure) => (w', Some failure)
      | (w', None) => Walk rest fn w'
      end
  end.

(** Recording a signature instead of printing it. *)
Definition collect (s : string) (l : list string) : list string := l ++ [s].

(** The names of a field list, and the results of a function type that
    are plain identifiers. *)
Definition fieldNames (l : list Field) : list string :=
  mjoin (Field_Names <$> l).

Definition identResult (result : Field) : option string :=
  match Field_Type result with
  | Some (Ident name) => Some name
  | _ => None
  end.

Definition resultNames (results : option (list Field)) : list string :=
  match results with
  | Some l => omap identResult l
  | None => []
  end.

Section Visitor.

Variable Sprint : Expr -> string.
Variable SprintGoSyntax : list Expr -> string.

(** The callback given to [ast.Inspect], over whatever
    [processIfNotProcessed] does with a rendered signature. *)
Definition visitor {State : Type}
    (processIfNotProcessed : string -> State -> State)
    (n : Node) (st : State) : State * bool :=
  let st :=
    match n with
    | Node_FuncDecl node =>
        processIfNotProcessed ("function " +:+ getFunctionSignature node) st
    | Node_GenDecl node =>
        if decide (GenDecl_Tok node = TYPE) then
          foldl (fun st spec =>
                   match spec with
                   | TypeSpec name (StructType fields) =>
                       processIfNotProcessed
                         ("struct " +:+ getStructDefinition name fields) st
                   | _ => st
                   end)
                st (GenDecl_Specs node)
        else if decide (GenDecl_Tok node = VAR) then
          foldl (fun st spec =>
                   match spec with
                   | ValueSpec names t values =>
                       processIfNotProcessed
                         ("var " +:+ getVariableDefinition
                                       Sprint SprintGoSyntax names t values)
                         st
                   | _ => st
                   end)
                st (GenDecl_Specs node)
        else st
    | _ => st
    end in
  (st, true).

(** [parser.ParseFile]: the tree of the file at a path, or the text of
    the error. *)
Variable ParseFile : string -> string + File.

Definition parseFile (filename : string) (w : Output) : Output :=
  match ParseFile filename with
  | inl err => Printf (filename +:+ ": " +:+ err +:+ newline) w
  | inr file =>
      let functionSignatures : list string := [] in
      let structDefinitions : list string := [] in
      let variableDefinitions : list string := [] in
      let p := {| processed := ∅; out := w |} in
      let p := Inspect (visitor (processIfNotProcessed filename)) file p in
      let p := foldl (fun p structDef =>
                        processIfNotProcessed filename structDef p)
                     p structDefinitions in
      let p := foldl (fun p variableDef =>
                        processIfNotProcessed filename variableDef p)
                     p variableDefinitions in
      let p := foldl (fun p signature =>
                        processIfNotProcessed filename signature p)
                     p functionSignatures in
      out p
  end.

(** The function given to [filepath.Walk]; it returns nil whatever the
    entry. *)
Definition walkFn (e : WalkEntry) (w : Output) : Output * option string :=
  match err e with
  | Some msg => (Println msg w, None)
  | None =>
      if negb (info_IsDir e) && strings.HasSuffix (info_Name e) ".go"
      then (parseFile (path e) w, None)
      else (w, None)
  end.

(** [run] over the entries [filepath.Walk] finds under the root; it
    prints the error of the walk, if any, and returns nil. *)
Definition run (entries : list WalkEntry) (w : Output)
  : Output * option string :=
  let (w, err) := Walk entries walkFn w in
  let w := match err with
           | Some msg => Println msg w
           | None => w
           end in
  (w, None).

(** The signatures the callback renders, in the order of the traversal:
    over a file, over one of its declarations, and over the statements
    of a body. *)
Definition rendered (file : File) : list string :=
  Inspect (visitor collect) file [].

Definition rendered_Decl (d : Decl) : list string :=
  Inspect_Decl (visitor collect) d [].

Definition rendered_GenDecl (d : GenDecl) : list string :=
  Inspect_GenDecl (visitor collect) d [].

Definition rendered_Stmt (s : Stmt) : list string :=
  Inspect_Stmt (visitor collect) s [].

(** The signature of one spec of a [type] group, when its type is a
    struct, and of one spec of a [var] group. *)
Definition structSignature (spec : Spec) : option string :=
  match spec with
  | TypeSpec name (StructType fields) =>
      Some ("struct " +:+ getStructDefinition name fields)
  | _ => None
  end.

Definition varSignature (spec : Spec) : option string :=
  match spec with
  | ValueSpec names t values =>
      Some ("var " +:+ getVariableDefinition Sprint SprintGoSyntax
                         names t values)
  | _ => None
  end.

(** What the callback renders at a general declaration itself, its
    specs' children apart. *)
Definition rendered_here (d : GenDecl) : list string :=
  fst (visitor collect (Node_GenDecl d) []).

End Visitor.

(** The signatures of a list without the repetitions of earlier ones. *)
Fixpoint firsts (seen : gmap string bool) (l : list string) : list string :=
  match l with
  | [] => []
  | s :: l' =>
      if mapIndex seen s then firsts seen l'
      else s :: firsts (<[s := true]> seen) l'
  end.

(** ** Plain names

    A Go identifier is not empty and has none of the characters the
    renderers put between names. *)

Fixpoint occurs (c : ascii) (s : string) : bool :=
  match s with
  | EmptyString => false
  | String a s' => if decide (c = a) then true else occurs c s'
  end.

Definition plainName (s : string) : bool :=
  negb (String.eqb s "")
  && negb (occurs " " s) && negb (occurs "," s)
  && negb (occurs "(" s) && negb (occurs ")" s).

Definition plainFunc (fn : FuncDecl) : bool :=
  plainName (Name fn)
  && forallb plainName (fieldNames (FuncType_Params (Type_ fn)))
  && forallb plainName (resultNames (FuncType_Results (Type_ fn))).

Definition plainStruct (name : string) (fields : list Field) : bool :=
  plainName name && forallb plainName (fieldNames fields).

(** An entry of the walk that is a readable Go source file. *)
Definition isGoFile (e : WalkEntry) : bool :=
  bool_decide (err e = None) && negb (info_IsDir e)
  && strings.HasSuffix (info_Name e) ".go".

(** ** Vocabulary of the proofs *)

(** The elements of a list and the content of an option all satisfy a
    property. *)
Definition Forall_all {A} {P : A -> Prop} (h : forall x, P x)
  : forall l : list A, Forall P l :=
  fix go l :=
    match l with
    | [] => @List.Forall_nil A P
    | x :: l' => @List.Forall_cons A P x l' (h x) (go l')
    end.

Definition option_all {A} (P : A -> Prop) (o : option A) : Prop :=
  match o with
  | Some x => P x
  | None => True
  end.

(** Two traversals of a node keep two states related. *)
Definition sim {S1 S2 : Type} (R : S1 -> S2 -> Prop) {A}
    (g1 : A -> S1 -> S1) (g2 : A -> S2 -> S2) (x : A) : Prop :=
  forall a b, R a b -> R (g1 x a) (g2 x b).

(** A traversal only appends to what was rendered before it. *)
Definition appends {A} (g : A -> list string -> list string) (x : A) : Prop :=
  forall l, g x l = l ++ g x [].

(** ** Sample inputs

    A formatter that prints an identifier as its name, and a directory
    of Go files.  [a.go] declares a variable group, the function [Add]
    (with a local variable and a local struct type in its body), the
    struct [Point], and [Add] once more; [b.go] declares [Add] and two
    methods [Len] on different receivers; [c.go] is [a.go] without the
    repetition; [d.go] has a variable spec without names; [e.go] a
    function with two results; [f.go] only [Add].  Any other path fails
    to parse. *)

Definition sampleSprint (e : Expr) : string :=
  match e with
  | Ident name => name
  | _ => "&{}"
  end.

Definition sampleSprintGoSyntax (values : list Expr) : string :=
  "[]ast.Expr{}".

Definition int_ : option Expr := Some (Ident "int").

Definition local_sum : GenDecl := mkGenDecl VAR [ValueSpec ["sum"] int_ []].

Definition local_pair : GenDecl :=
  mkGenDecl TYPE [TypeSpec "pair" (StructType [mkField ["l"; "r"] int_])].

Definition body_Add : list Stmt :=
  [DeclStmt local_sum; DeclStmt local_pair; ReturnStmt [Ident "sum"]].

Definition decl_Add : FuncDecl :=
  {| Recv := None;
     Name := "Add";
     Type_ := mkFuncType [mkField ["a"; "b"] int_] (Some [mkField [] int_]);
     Body := Some body_Add |}.

Definition decl_Div : FuncDecl :=
  {| Recv := None;
     Name := "Div";
     Type_ := mkFuncType [mkField ["a"; "b"] int_]
                         (Some [mkField [] int_;
                                mkField [] (Some (Ident "error"))]);
     Body := Some [ReturnStmt [Ident "a"; Ident "nil"]] |}.

Definition fields_Point : list Field := [mkField ["X"; "Y"] int_].

Definition decl_Point : GenDecl :=
  mkGenDecl TYPE [TypeSpec "Point" (StructType fields_Point)].

Definition decl_xy : GenDecl := mkGenDecl VAR [ValueSpec ["x"; "y"] int_ []].

Definition decl_nameless : GenDecl := mkGenDecl VAR [ValueSpec [] None []].

Definition decl_Len (receiver : string) : FuncDecl :=
  {| Recv := Some [mkField ["r"] (Some (Ident receiver))];
     Name := "Len";
     Type_ := mkFuncType [] (Some [mkField [] int_]);
     Body := Some [ReturnStmt [BasicLit "0"]] |}.

Definition file_a : File :=
  mkFile "main"
    [Decl_Gen decl_xy; Decl_Func decl_Add; Decl_Gen decl_Point;
     Decl_Func decl_Add].

Definition file_b : File :=
  mkFile "main"
    [Decl_Func decl_Add; Decl_Func (decl_Len "A"); Decl_Func (decl_Len "B")].

Definition file_c : File :=
  mkFile "main" [Decl_Gen decl_xy; Decl_Func decl_Add; Decl_Gen decl_Point].

Definition file_d : File := mkFile "main" [Decl_Gen decl_nameless].

Definition file_e : File := mkFile "main" [Decl_Func decl_Div].

Definition file_f : File := mkFile "main" [Decl_Func decl_Add].

Definition sampleFiles : list (string * File) :=
  [("a.go", file_a); ("b.go", file_b); ("c.go", file_c); ("d.go", file_d);
   ("e.go", file_e); ("f.go", file_f)].

Definition sampleParseFile (filename : string) : string + File :=
  match list_find (fun entry => fst entry = filename) sampleFiles with
  | Some (_, (_, file)) => inr file
  | None => inl (filename +:+ ":1:1: expected 'package', found 'EOF'")
  end.

Definition goFile (name : string) : WalkEntry :=
  {| path := name; info_Name := name; info_IsDir := false; err := None |}.

Definition quiet : Output := {| stdout := []; stderr := [] |}.

Definition sample_rendered : File -> list string :=
  rendered sampleSprint sampleSprintGoSyntax.

Definition sample_parseFile : string -> Output -> Output :=
  parseFile sampleSprint sampleSprintGoSyntax sampleParseFile.

Definition sample_run : list WalkEntry -> Output -> Output * option string :=
  run sampleSprint sampleSprintGoSyntax sampleParseFile.

(** ** The rest of the program *)

(** The nodes [ast.Inspect] hands to a callback that always answers
    true, in the order of the calls. *)
Definition record (n : Node) (l : list Node) : list Node * bool :=
  (l ++ [n], true).

Definition visited (file : File) : list Node := Inspect record file [].

Section Execute.

Variable Sprint : Expr -> string.
Variable SprintGoSyntax : list Expr -> string.
Variable ParseFile : string -> string + File.

(** What one entry of the walk prints on an empty output. *)
Definition entryLines (e : WalkEntry) : list string :=
  stdout (fst (walkFn Sprint SprintGoSyntax ParseFile e
                 {| stdout := []; stderr := [] |})).

(** [parseFlags] (the flags library), [setLogLevel] and [setupLogger]
    (not in this file): whatever they print, and their error or nil.
    [slog.Error] with its message and the error. *)
Variable parseFlags : Output -> Output * option string.
Variable setLogLevel : Output -> Output * option string.
Variable setupLogger : Output -> Output * option string.
Variable slog_Error : string -> string -> Output -> Output.

(** [Execute], over the entries the walk finds under the root the flags
    name: the exit code of the process. *)
Definition Execute (entries : list WalkEntry) (w : Output) : Output * Z :=
  match parseFlags w with
  | (w, Some _) => (w, 1%Z)
  | (w, None) =>
      match setLogLevel w with
      | (w, Some _) => (w, 1%Z)
      | (w, None) =>
          match setupLogger w with
          | (w, Some _) => (w, 1%Z)
          | (w, None) =>
              match run Sprint SprintGoSyntax ParseFile entries w with
              | (w, Some failure) => (slog_Error "run failed" failure w, 1%Z)
              | (w, None) => (w, 0%Z)
              end
          end
      end
  end.

End Execute.

(** [g.go] declares a variable whose initialiser is a function literal
    with a variable of its own. *)
Definition local_deep : GenDecl := mkGenDecl VAR [ValueSpec ["deep"] int_ []].

Definition decl_closure : GenDecl :=
  mkGenDecl VAR
    [ValueSpec ["f"] None
       [FuncLit (mkFuncType [] None)
                [BlockStmt [DeclStmt local_deep]]]].

Definition file_g : File := mkFile "main" [Decl_Gen decl_closure].

Definition sampleParseFile' (filename : string) : string + File :=
  if decide (filename = "g.go") then inr file_g else sampleParseFile filename.

(** A directory whose name ends in [.go]. *)
Definition goDir (name : string) : WalkEntry :=
  {| path := name; info_Name := name; info_IsDir := true; err := None |}.

(** ** Trees the parser builds

    [go/parser] reads the names of a value spec with its identifier
    list, which has at least one identifier; a tree [parser.ParseFile]
    returns without an error has no value spec without names, at any
    depth. *)




(** ** Induction over the syntax tree

    The tree nests through [list] and [option]; the principle below gives
    the induction hypothesis for every element of a nested list. *)

Section AstInduction.

Variables (PE : Expr -> Prop) (PF : Field -> Prop) (PT : FuncType -> Prop)
          (PS : Stmt -> Prop) (PSp : Spec -> Prop) (PG : GenDecl -> Prop).

Hypothesis HIdent : forall n, PE (Ident n).
Hypothesis HBasicLit : forall v, PE (BasicLit v).
Hypothesis HStarExpr : forall X, PE X -> PE (StarExpr X).
Hypothesis HCallExpr :
  forall Fun Args, PE Fun -> Forall PE Args -> PE (CallExpr Fun Args).
Hypothesis HStructType :
  forall Fields, Forall PF Fields -> PE (StructType Fields).
Hypothesis HFuncLit :
  forall t body, PT t -> Forall PS body -> PE (FuncLit t body).
Hypothesis HField :
  forall names t, option_all PE t -> PF (mkField names t).
Hypothesis HFuncType :
  forall params results,
    Forall PF params -> option_all (Forall PF) results ->
    PT (mkFuncType params results).
Hypothesis HDeclStmt : forall d, PG d -> PS (DeclStmt d).
Hypothesis HExprStmt : forall X, PE X -> PS (ExprStmt X).
Hypothesis HReturnStmt :
  forall results, Forall PE results -> PS (ReturnStmt results).
Hypothesis HBlockStmt : forall l, Forall PS l -> PS (BlockStmt l).
Hypothesis HImportSpec : forall path, PSp (ImportSpec path).
Hypothesis HValueSpec :
  forall names t values,
    option_all PE t -> Forall PE values -> PSp (ValueSpec names t values).
Hypothesis HTypeSpec : forall name t, PE t -> PSp (TypeSpec name t).
Hypothesis HGenDecl :
  forall tok specs, Forall PSp specs -> PG (mkGenDecl tok specs).

Fixpoint Expr_all (e : Expr) : PE e :=
  match e with
  | Ident n => HIdent n
  | BasicLit v => HBasicLit v
  | StarExpr X => HStarExpr X (Expr_all X)
  | CallExpr Fun Args =>
      HCallExpr Fun Args (Expr_all Fun) (Forall_all Expr_all Args)
  | StructType Fields => HStructType Fields (Forall_all Field_all Fields)
  | FuncLit t body =>
      HFuncLit t body (FuncType_all t) (Forall_all Stmt_all body)
  end
with Field_all (fd : Field) : PF fd :=
  match fd with
  | mkField names t =>
      HField names t
        match t return option_all PE t with
        | Some t' => Expr_all t'
        | None => I
        end
  end
with FuncType_all (t : FuncType) : PT t :=
  match t with
  | mkFuncType params results =>
      HFuncType params results (Forall_all Field_all params)
        match results return option_all (Forall PF) results with
        | Some l => Forall_all Field_all l
        | None => I
        end
  end
with Stmt_all (s : Stmt) : PS s :=
  match s with
  | DeclStmt d => HDeclStmt d (GenDecl_all d)
  | ExprStmt X => HExprStmt X (Expr_all X)
  | ReturnStmt results =>
      HReturnStmt results (Forall_all Expr_all results)
  | BlockStmt l => HBlockStmt l (Forall_all Stmt_all l)
  end
with Spec_all (sp : Spec) : PSp sp :=
  match sp with
  | ImportSpec path => HImportSpec path
  | ValueSpec names t values =>
      HValueSpec names t values
        match t return option_all PE t with
        | Some t' => Expr_all t'
        | None => I
        end
        (Forall_all Expr_all values)
  | TypeSpec name t => HTypeSpec name t (Expr_all t)
  end
with GenDecl_all (d : GenDecl) : PG d :=
  match d with
  | mkGenDecl tok specs => HGenDecl tok specs (Forall_all Spec_all specs)
  end.

Lemma tree_ind :
  (forall e, PE e) /\ (forall fd, PF fd) /\ (forall t, PT t) /\
  (forall s, PS s) /\ (forall sp, PSp sp) /\ (forall d, PG d).
Proof.
  repeat split;
    [ apply Expr_all | apply Field_all | apply FuncType_all
    | apply Stmt_all | apply Spec_all | apply GenDecl_all ].
Qed.

End AstInduction.

(** ** The traversal as a list of signatures *)

Section Simulation.

(** Two callbacks that answer alike and keep two states related give
    related states over a whole traversal. *)
Context {S1 S2 : Type}.
Variable f1 : Node -> S1 -> S1 * bool.
Variable f2 : Node -> S2 -> S2 * bool.
Variable R : S1 -> S2 -> Prop.

Hypothesis f_sim :
  forall n a b, R a b ->
    R (fst (f1 n a)) (fst (f2 n b)) /\ snd (f1 n a) = snd (f2 n b).

#[local] Abbreviation sim := (sim R).

Lemma visit_sim n (c1 : S1 -> S1) (c2 : S2 -> S2) a b :
  R a b -> (forall a b, R a b -> R (c1 a) (c2 b)) ->
  R (visit f1 n c1 a) (visit f2 n c2 b).
Proof.
  intros Hab Hc. unfold visit.
  destruct (f_sim n a b Hab) as [HR Hd].
  destruct (f1 n a) as [a1 d1], (f2 n b) as [b1 d2]; simpl in *; subst d2.
  destruct d1; [|done].
  apply f_sim, Hc, HR.
Qed.

Lemma foldl_sim {A} (g1 : A -> S1 -> S1) (g2 : A -> S2 -> S2) l :
  Forall (sim g1 g2) l ->
  forall a b, R a b ->
    R (foldl (fun st x => g1 x st) a l) (foldl (fun st x => g2 x st) b l).
Proof.
  induction 1 as [|x l Hx _ IH]; intros a b Hab; simpl; [done|].
  apply IH, Hx, Hab.
Qed.

Lemma walkIdent_sim name : sim (walkIdent f1) (walkIdent f2) name.
Proof. intros a b Hab. apply visit_sim; auto. Qed.

Lemma walkIdents_sim names a b :
  R a b ->
  R (foldl (fun st n => walkIdent f1 n st) a names)
    (foldl (fun st n => walkIdent f2 n st) b names).
Proof.
  apply (foldl_sim (walkIdent f1) (walkIdent f2)).
  apply Forall_forall. intros n _. apply walkIdent_sim.
Qed.

Lemma FieldList_sim l a b :
  Forall (sim (Inspect_Field f1) (Inspect_Field f2)) l -> R a b ->
  R (visit f1 (Node_FieldList l)
       (fun st => foldl (fun st fd => Inspect_Field f1 fd st) st l) a)
    (visit f2 (Node_FieldList l)
       (fun st => foldl (fun st fd => Inspect_Field f2 fd st) st l) b).
Proof.
  intros Hl Hab. apply visit_sim; [done|].
  intros a' b'. by apply (foldl_sim (Inspect_Field f1) (Inspect_Field f2)).
Qed.

Lemma Block_sim l a b :
  Forall (sim (Inspect_Stmt f1) (Inspect_Stmt f2)) l -> R a b ->
  R (visit f1 (Node_Stmt (BlockStmt l))
       (fun st => foldl (fun st s => Inspect_Stmt f1 s st) st l) a)
    (visit f2 (Node_Stmt (BlockStmt l))
       (fun st => foldl (fun st s => Inspect_Stmt f2 s st) st l) b).
Proof.
  intros Hl Hab. apply visit_sim; [done|].
  intros a' b'. by apply (foldl_sim (Inspect_Stmt f1) (Inspect_Stmt f2)).
Qed.

Ltac sim_step :=
  match goal with
  | H : R ?a ?b |- R ?a ?b => exact H
  | H : sim _ _ ?x |- R (_ ?x _) (_ ?x _) => apply H
  | |- R (walkIdent _ _ _) (walkIdent _ _ _) => apply walkIdent_sim
  | |- R (foldl (fun st n => walkIdent _ n st) _ _) _ =>
      apply walkIdents_sim
  | H : Forall (sim ?g1 ?g2) ?l |- R (foldl _ _ ?l) (foldl _ _ ?l) =>
      apply (foldl_sim g1 g2 l H)
  | |- R (visit _ _ _ _) (visit _ _ _ _) =>
      apply visit_sim; [|intros ? ? ?]
  | H : option_all _ ?o |- _ => destruct o; simpl in H
  end.

Lemma Inspect_tree_sim :
  (forall e, sim (Inspect_Expr f1) (Inspect_Expr f2) e) /\
  (forall fd, sim (Inspect_Field f1) (Inspect_Field f2) fd) /\
  (forall t, sim (Inspect_FuncType f1) (Inspect_FuncType f2) t) /\
  (forall s, sim (Inspect_Stmt f1) (Inspect_Stmt f2) s) /\
  (forall sp, sim (Inspect_Spec f1) (Inspect_Spec f2) sp) /\
  (forall d, sim (Inspect_GenDecl f1) (Inspect_GenDecl f2) d).
Proof.
  apply tree_ind; intros; intros a b Hab; simpl; repeat sim_step.
Qed.

Lemma Inspect_FuncDecl_sim fn :
  sim (Inspect_FuncDecl f1) (Inspect_FuncDecl f2) fn.
Proof.
  destruct Inspect_tree_sim as (_ & HF & HT & HS & _).
  intros a b Hab. unfold Inspect_FuncDecl.
  apply visit_sim; [done|]. clear a b Hab. intros a b Hab.
  assert (Hbody : forall l : list Stmt,
             Forall (sim (Inspect_Stmt f1) (Inspect_Stmt f2)) l)
    by (intros l; apply Forall_forall; auto).
  assert (Hfields : forall l : list Field,
             Forall (sim (Inspect_Field f1) (Inspect_Field f2)) l)
    by (intros l; apply Forall_forall; auto).
  destruct (Body fn) as [body|], (Recv fn) as [recv|].
  all: repeat first
         [ apply Block_sim | apply FieldList_sim | apply HT
         | apply walkIdent_sim | done ].
Qed.

Lemma Inspect_sim file : sim (Inspect f1) (Inspect f2) file.
Proof.
  intros a b Hab. unfold Inspect.
  apply visit_sim; [done|]. clear a b Hab. intros a b Hab.
  apply (foldl_sim (Inspect_Decl f1) (Inspect_Decl f2)).
  - apply Forall_forall. intros [fn|d] _; simpl.
    + apply Inspect_FuncDecl_sim.
    + apply Inspect_tree_sim.
  - by apply walkIdent_sim.
Qed.

End Simulation.

(** ** First occurrences *)

Lemma mapIndex_empty s : mapIndex ∅ s = false.
Proof. unfold mapIndex. by rewrite lookup_empty. Qed.

Lemma mapIndex_insert (seen : gmap string bool) s s' :
  mapIndex (<[s := true]> seen) s' =
  if decide (s = s') then true else mapIndex seen s'.
Proof.
  unfold mapIndex. destruct (decide (s = s')) as [->|Hne].
  - by rewrite lookup_insert_eq.
  - by rewrite lookup_insert_ne.
Qed.

Lemma elem_of_firsts seen l s :
  s ∈ firsts seen l <-> s ∈ l /\ mapIndex seen s = false.
Proof.
  revert seen. induction l as [|x l IH]; intros seen; simpl.
  - split; [by intros ?%elem_of_nil | by intros [?%elem_of_nil _]].
  - destruct (mapIndex seen x) eqn:Hx.
    + rewrite IH, elem_of_cons. split; [intros [? ?]; auto|].
      intros [[->|?] ?]; [congruence | done].
    + rewrite !elem_of_cons, IH, mapIndex_insert.
      destruct (decide (x = s)) as [->|Hne].
      * split; [auto | intros _; by left].
      * split; [intros [?|[? ?]]; [congruence | auto]|].
        intros [[?|?] ?]; [congruence | auto].
Qed.

Lemma NoDup_firsts seen l : NoDup (firsts seen l).
Proof.
  revert seen. induction l as [|x l IH]; intros seen; simpl.
  - constructor.
  - destruct (mapIndex seen x) eqn:Hx; [apply IH|].
    constructor; [|apply IH].
    rewrite elem_of_firsts, mapIndex_insert.
    destruct (decide (x = x)); [|done]. by intros [_ ?].
Qed.



(** A signature is printed when, and only when, it is new to the file. *)
Lemma processIfNotProcessed_out filename s p :
  out (processIfNotProcessed filename s p) =
  if mapIndex (processed p) s then out p
  else Printf (line filename s) (out p).
Proof.
  unfold processIfNotProcessed. by destruct (mapIndex (processed p) s).
Qed.

Lemma processIfNotProcessed_processed filename s p :
  processed (processIfNotProcessed filename s p) =
  if mapIndex (processed p) s then processed p
  else <[s := true]> (processed p).
Proof.
  unfold processIfNotProcessed. by destruct (mapIndex (processed p) s).
Qed.

Lemma foldl_processIfNotProcessed filename l p :
  out (foldl (fun p s => processIfNotProcessed filename s p) p l) =
  {| stdout := stdout (out p) ++ (line filename <$> firsts (processed p) l);
     stderr := stderr (out p) |}.
Proof.
  revert p. induction l as [|s l IH]; intros p; simpl.
  - rewrite app_nil_r. by destruct (out p).
  - rewrite IH, processIfNotProcessed_out, processIfNotProcessed_processed.
    destruct (mapIndex (processed p) s); [done|].
    simpl. by rewrite <- app_assoc.
Qed.

(** ** What a traversal prints *)

Section Report.

Variable Sprint : Expr -> string.
Variable SprintGoSyntax : list Expr -> string.

#[local] Abbreviation visitor := (visitor Sprint SprintGoSyntax).
#[local] Abbreviation rendered := (rendered Sprint SprintGoSyntax).

Lemma visitor_trace {State} (emit : string -> State -> State) (st0 : State) n a l :
  a = foldl (fun st s => emit s st) st0 l ->
  fst (visitor emit n a) =
  foldl (fun st s => emit s st) st0 (fst (visitor collect n l)).
Proof.
  intros ->. unfold visitor; simpl.
  destruct n as [|?|fn|d|?|?|?|?|?|?]; try done.
  - unfold collect. by rewrite foldl_app.
  - destruct (decide (GenDecl_Tok d = TYPE));
      [|destruct (decide (GenDecl_Tok d = VAR)); [|done]].
    all: generalize (GenDecl_Specs d); intros specs; revert l.
    all: induction specs as [|sp specs IH]; intros l; simpl; [done|].
    all: destruct sp as [?|names t values|name t]; try apply IH.
    + destruct t; try apply IH.
      unfold collect at 2. rewrite <- IH. by rewrite foldl_app.
    + unfold collect at 2. rewrite <- IH. by rewrite foldl_app.
Qed.

(** The traversal does to any state what feeding it the rendered
    signatures in order does. *)
Lemma Inspect_rendered {State} (emit : string -> State -> State) file st0 :
  Inspect (visitor emit) file st0 =
  foldl (fun st s => emit s st) st0 (rendered file).
Proof.
  apply (Inspect_sim (visitor emit) (visitor collect)
           (fun a l => a = foldl (fun st s => emit s st) st0 l)); [|done].
  intros n a l Hal. split; [|done]. by apply visitor_trace.
Qed.

Variable ParseFile : string -> string + File.

#[local] Abbreviation parseFile := (parseFile Sprint SprintGoSyntax ParseFile).

Lemma parseFile_parsed filename file w :
  ParseFile filename = inr file ->
  parseFile filename w =
  {| stdout := stdout w ++ (line filename <$> firsts ∅ (rendered file));
     stderr := stderr w |}.
Proof.
  intros Hparse. unfold parseFile. rewrite Hparse. simpl.
  by rewrite Inspect_rendered, foldl_processIfNotProcessed.
Qed.

Lemma parseFile_failed filename msg w :
  ParseFile filename = inl msg ->
  parseFile filename w =
  {| stdout := stdout w ++ [filename +:+ ": " +:+ msg +:+ newline];
     stderr := stderr w |}.
Proof. intros Hparse. unfold parseFile. by rewrite Hparse. Qed.

End Report.

(** ** The renderers, loop-free *)

Lemma foldl_snoc_names (acc names : list string) :
  foldl (fun acc name => acc ++ [name]) acc names = acc ++ names.
Proof.
  revert acc. induction names as [|n names IH]; intros acc; simpl.
  - by rewrite app_nil_r.
  - by rewrite IH, <- app_assoc.
Qed.

Lemma foldl_fieldNames (acc : list string) (l : list Field) :
  foldl (fun acc fd =>
           foldl (fun acc name => acc ++ [name]) acc (Field_Names fd))
        acc l
  = acc ++ fieldNames l.
Proof.
  revert acc. induction l as [|fd l IH]; intros acc; simpl.
  - by rewrite app_nil_r.
  - rewrite IH, foldl_snoc_names. unfold fieldNames; simpl.
    by rewrite <- app_assoc.
Qed.

Lemma foldl_identResults (acc : list string) (l : list Field) :
  foldl (fun results result =>
           match Field_Type result with
           | Some (Ident name) => results ++ [name]
           | _ => results
           end)
        acc l
  = acc ++ omap identResult l.
Proof.
  revert acc. induction l as [|fd l IH]; intros acc; simpl.
  - by rewrite app_nil_r.
  - rewrite IH. unfold identResult at 2.
    destruct (Field_Type fd) as [[]|]; simpl; try done.
    by rewrite <- app_assoc.
Qed.

Lemma getFunctionSignature_eq fn :
  getFunctionSignature fn =
  Name fn +:+ "(" +:+ strings.Join (fieldNames (FuncType_Params (Type_ fn))) ", "
          +:+ ") "
          +:+ strings.Join (resultNames (FuncType_Results (Type_ fn))) ", ".
Proof.
  unfold getFunctionSignature, resultNames.
  rewrite foldl_fieldNames.
  destruct (FuncType_Results (Type_ fn)); [|done].
  by rewrite foldl_identResults.
Qed.

Lemma getStructDefinition_eq name fields :
  getStructDefinition name fields =
  "type " +:+ name +:+ " struct { " +:+ strings.Join (fieldNames fields) ", "
          +:+ " }".
Proof. unfold getStructDefinition. by rewrite foldl_fieldNames. Qed.


Lemma getVariableDefinition_cons Sprint SprintGoSyntax n names t values :
  getVariableDefinition Sprint SprintGoSyntax (n :: names) t values =
  "var " +:+ strings.Join (n :: names) ", " +:+ " "
         +:+ match t with
             | Some t => removeTokenInfo (Sprint t)
             | None => ""
             end
         +:+ " "
         +:+ match values with
             | [] => ""
             | _ :: _ => SprintGoSyntax values
             end.
Proof.
  unfold getVariableDefinition. rewrite foldl_snoc_names. simpl app.
  destruct (decide (length (n :: names) = 0)) as [Hlen|_]; [done|].
  destruct values as [|v values]; [done|].
  destruct (decide (0 < length (v :: values))) as [_|Hlen]; [done|].
  simpl in Hlen. lia.
Qed.

(** ** Reading a signature back *)

Lemma length_append (s t : string) :
  String.length (s +:+ t) = String.length s + String.length t.
Proof. induction s as [|c s IH]; simpl; [done | by rewrite IH]. Qed.

Lemma append_inj_r (t s1 s2 : string) : s1 +:+ t = s2 +:+ t -> s1 = s2.
Proof.
  revert s2. induction s1 as [|c s1 IH]; intros [|c' s2] H.
  - done.
  - apply (f_equal String.length) in H.
    rewrite !length_append in H. simpl in H. lia.
  - apply (f_equal String.length) in H.
    rewrite !length_append in H. simpl in H. lia.
  - injection H as Hc H. subst c'. f_equal. by apply IH.
Qed.

#[global] Instance line_inj filename : Inj (=) (=) (line filename).
Proof.
  intros s1 s2 H. unfold line in H.
  apply (inj (String.app filename)) in H.
  apply (inj (String.app ": ")) in H.
  by apply append_inj_r in H.
Qed.

Lemma occurs_append c s t : occurs c (s +:+ t) = occurs c s || occurs c t.
Proof.
  induction s as [|a s IH]; simpl; [done|].
  by destruct (decide (c = a)).
Qed.

(** Two texts cut at the first occurrence of a character agree on both
    sides of the cut. *)
Lemma split_first c s1 t1 s2 t2 :
  occurs c s1 = false -> occurs c s2 = false ->
  s1 +:+ String c t1 = s2 +:+ String c t2 -> s1 = s2 /\ t1 = t2.
Proof.
  revert s2. induction s1 as [|a s1 IH]; intros [|a' s2]; simpl.
  - intros _ _ H. by injection H.
  - intros _ Ha' H. injection H as Hc _. subst a'.
    by destruct (decide (c = c)).
  - intros Ha _ H. injection H as Hc _. subst a.
    by destruct (decide (c = c)).
  - intros Ha Ha' H. injection H as Hc H. subst a'.
    destruct (decide (c = a)); [done|].
    destruct (IH s2 Ha Ha' H) as [-> ->]. done.
Qed.

Lemma plainName_nonempty s : plainName s = true -> s <> "".
Proof. intros H ->. done. Qed.

Lemma plainName_occurs s :
  plainName s = true ->
  occurs " " s = false /\ occurs "," s = false /\
  occurs "(" s = false /\ occurs ")" s = false.
Proof.
  unfold plainName. rewrite !andb_true_iff, !negb_true_iff. tauto.
Qed.

Lemma Join_cons_cons e e' rest sep :
  strings.Join (e :: e' :: rest) sep =
  e +:+ sep +:+ strings.Join (e' :: rest) sep.
Proof. done. Qed.

Lemma occurs_Join c l :
  c <> " "%char -> c <> ","%char ->
  Forall (fun e => occurs c e = false) l ->
  occurs c (strings.Join l ", ") = false.
Proof.
  intros Hsp Hco. induction 1 as [|e l He Hl IH]; [done|].
  destruct l as [|e' l]; [done|].
  rewrite Join_cons_cons, !occurs_append, He, IH. simpl.
  destruct (decide (c = ","%char)); [done|].
  by destruct (decide (c = " "%char)).
Qed.

Lemma Join_nonempty e l sep : e <> "" -> strings.Join (e :: l) sep <> "".
Proof.
  intros He. destruct l as [|e' l]; [done|].
  rewrite Join_cons_cons. by destruct e.
Qed.

Lemma Join_inj l1 l2 :
  forallb plainName l1 = true -> forallb plainName l2 = true ->
  strings.Join l1 ", " = strings.Join l2 ", " -> l1 = l2.
Proof.
  revert l2. induction l1 as [|e1 l1 IH]; intros [|e2 l2] H1 H2 H.
  - done.
  - simpl in H2. apply andb_prop in H2 as [He2 _].
    symmetry in H. exfalso.
    by apply (Join_nonempty e2 l2 ", " (plainName_nonempty _ He2)).
  - simpl in H1. apply andb_prop in H1 as [He1 _].
    exfalso.
    by apply (Join_nonempty e1 l1 ", " (plainName_nonempty _ He1)).
  - simpl in H1, H2.
    apply andb_prop in H1 as [He1 H1]. apply andb_prop in H2 as [He2 H2].
    destruct (plainName_occurs _ He1) as (_ & Hc1 & _).
    destruct (plainName_occurs _ He2) as (_ & Hc2 & _).
    destruct l1 as [|e1' l1], l2 as [|e2' l2].
    + simpl in H. by subst.
    + rewrite Join_cons_cons in H. simpl strings.Join in H at 1.
      apply (f_equal (occurs ",")) in H.
      rewrite occurs_append, Hc1, Hc2 in H. done.
    + rewrite Join_cons_cons in H. simpl strings.Join in H at 2.
      apply (f_equal (occurs ",")) in H.
      rewrite occurs_append, Hc1, Hc2 in H. done.
    + rewrite !Join_cons_cons in H.
      destruct (split_first "," e1 _ e2 _ Hc1 Hc2 H) as [-> Hrest].
      injection Hrest as Hrest. f_equal. by apply IH.
Qed.

Lemma plainNames_occurs c l :
  (c = "("%char \/ c = ")"%char) ->
  forallb plainName l = true -> occurs c (strings.Join l ", ") = false.
Proof.
  intros Hc Hl. apply occurs_Join.
  - by destruct Hc as [-> | ->].
  - by destruct Hc as [-> | ->].
  - apply Forall_forall. intros e He.
    rewrite forallb_forall in Hl. apply list_elem_of_In, Hl in He.
    apply plainName_occurs in He as (_ & _ & ? & ?).
    by destruct Hc as [-> | ->].
Qed.

Lemma getFunctionSignature_inj fn1 fn2 :
  plainFunc fn1 = true -> plainFunc fn2 = true ->
  getFunctionSignature fn1 = getFunctionSignature fn2 ->
  Name fn1 = Name fn2 /\
  fieldNames (FuncType_Params (Type_ fn1)) =
    fieldNames (FuncType_Params (Type_ fn2)) /\
  resultNames (FuncType_Results (Type_ fn1)) =
    resultNames (FuncType_Results (Type_ fn2)).
Proof.
  unfold plainFunc. rewrite !andb_true_iff.
  intros [[Hn1 Hp1] Hr1] [[Hn2 Hp2] Hr2].
  rewrite !getFunctionSignature_eq. intros H.
  destruct (plainName_occurs _ Hn1) as (_ & _ & Ho1 & _).
  destruct (plainName_occurs _ Hn2) as (_ & _ & Ho2 & _).
  destruct (split_first "(" _ _ _ _ Ho1 Ho2 H) as [Hname H'].
  assert (Hc1 := plainNames_occurs ")" _ (or_intror eq_refl) Hp1).
  assert (Hc2 := plainNames_occurs ")" _ (or_intror eq_refl) Hp2).
  destruct (split_first ")" _ _ _ _ Hc1 Hc2 H') as [Hparams Hresults].
  injection Hresults as Hresults.
  repeat split; [done | by apply Join_inj | by apply Join_inj].
Qed.

Lemma getStructDefinition_inj name1 fields1 name2 fields2 :
  plainStruct name1 fields1 = true -> plainStruct name2 fields2 = true ->
  getStructDefinition name1 fields1 = getStructDefinition name2 fields2 ->
  name1 = name2 /\ fieldNames fields1 = fieldNames fields2.
Proof.
  unfold plainStruct. rewrite !andb_true_iff.
  intros [Hn1 Hf1] [Hn2 Hf2].
  rewrite !getStructDefinition_eq. intros H.
  apply (inj (String.app "type ")) in H.
  destruct (plainName_occurs _ Hn1) as (Ho1 & _).
  destruct (plainName_occurs _ Hn2) as (Ho2 & _).
  destruct (split_first " " _ _ _ _ Ho1 Ho2 H) as [Hname H'].
  apply (inj (String.app "struct { ")) in H'.
  apply append_inj_r in H'.
  split; [done | by apply Join_inj].
Qed.

(** ** The shape of the rendered list *)

Section Trace.

Variable Sprint : Expr -> string.
Variable SprintGoSyntax : list Expr -> string.

#[local] Abbreviation visitor := (visitor Sprint SprintGoSyntax).
#[local] Abbreviation rendered := (rendered Sprint SprintGoSyntax).
#[local] Abbreviation rendered_Decl := (rendered_Decl Sprint SprintGoSyntax).
#[local] Abbreviation rendered_GenDecl :=
  (rendered_GenDecl Sprint SprintGoSyntax).
#[local] Abbreviation rendered_Stmt := (rendered_Stmt Sprint SprintGoSyntax).
#[local] Abbreviation rendered_here := (rendered_here Sprint SprintGoSyntax).
#[local] Abbreviation varSignature := (varSignature Sprint SprintGoSyntax).

Lemma foldl_collect (l k : list string) :
  foldl (fun st s => collect s st) l k = l ++ k.
Proof. apply foldl_snoc_names. Qed.

Lemma visitor_here {State} (emit : string -> State -> State) d st :
  fst (visitor emit (Node_GenDecl d) st) =
  foldl (fun st s => emit s st) st (rendered_here d).
Proof. by apply (visitor_trace Sprint SprintGoSyntax emit st _ st []). Qed.

Lemma visitor_collect_app n l k :
  fst (visitor collect n (l ++ k)) = l ++ fst (visitor collect n k).
Proof.
  rewrite (visitor_trace Sprint SprintGoSyntax collect l n (l ++ k) k).
  - apply foldl_collect.
  - by rewrite foldl_collect.
Qed.

Lemma visit_visitor {State} (emit : string -> State -> State) n c st :
  visit (visitor emit) n c st = c (fst (visitor emit n st)).
Proof. done. Qed.

Lemma appends_sim {A} (g : A -> list string -> list string) x :
  (forall l, sim (fun a b => a = l ++ b) g g x) -> appends g x.
Proof. intros H l. apply (H l). by rewrite app_nil_r. Qed.

Lemma collect_sim l n a b :
  a = l ++ b ->
  fst (visitor collect n a) = l ++ fst (visitor collect n b) /\
  snd (visitor collect n a) = snd (visitor collect n b).
Proof. intros ->. split; [apply visitor_collect_app | done]. Qed.

Lemma Inspect_Stmt_appends s : appends (Inspect_Stmt (visitor collect)) s.
Proof.
  apply appends_sim. intros l.
  apply (Inspect_tree_sim _ _ _ (collect_sim l)).
Qed.

Lemma Inspect_GenDecl_appends d :
  appends (Inspect_GenDecl (visitor collect)) d.
Proof.
  apply appends_sim. intros l.
  apply (Inspect_tree_sim _ _ _ (collect_sim l)).
Qed.

Lemma Inspect_Spec_appends sp : appends (Inspect_Spec (visitor collect)) sp.
Proof.
  apply appends_sim. intros l.
  apply (Inspect_tree_sim _ _ _ (collect_sim l)).
Qed.

Lemma Inspect_FuncDecl_appends fn :
  appends (Inspect_FuncDecl (visitor collect)) fn.
Proof.
  apply appends_sim. intros l.
  apply (Inspect_FuncDecl_sim _ _ _ (collect_sim l)).
Qed.

Lemma Inspect_Decl_appends d : appends (Inspect_Decl (visitor collect)) d.
Proof.
  destruct d; [apply Inspect_FuncDecl_appends | apply Inspect_GenDecl_appends].
Qed.

Lemma foldl_appends {A} (g : A -> list string -> list string) xs l :
  (forall x, appends g x) ->
  foldl (fun st x => g x st) l xs = l ++ mjoin ((fun x => g x []) <$> xs).
Proof.
  intros Hg. revert l. induction xs as [|x xs IH]; intros l; simpl.
  - by rewrite app_nil_r.
  - by rewrite IH, (Hg x l), <- app_assoc.
Qed.

Lemma rendered_Decls file :
  rendered file = mjoin (rendered_Decl <$> Decls file).
Proof.
  unfold rendered, Inspect, walkIdent. rewrite !visit_visitor. simpl.
  apply (foldl_appends (Inspect_Decl (visitor collect)) (Decls file) []).
  apply Inspect_Decl_appends.
Qed.

Lemma rendered_GenDecl_here d :
  exists rest, rendered_GenDecl d = rendered_here d ++ rest.
Proof.
  unfold rendered_GenDecl. destruct d as [tok specs]. simpl.
  rewrite visit_visitor.
  rewrite (foldl_appends (Inspect_Spec (visitor collect)))
    by apply Inspect_Spec_appends.
  by eexists.
Qed.


Lemma rendered_FuncDecl fn :
  exists mid,
    rendered_Decl (Decl_Func fn) =
    ("function " +:+ getFunctionSignature fn) :: mid ++
    match Body fn with
    | Some body => mjoin (rendered_Stmt <$> body)
    | None => []
    end.
Proof.
  unfold rendered_Decl, Inspect_Decl, Inspect_FuncDecl.
  rewrite visit_visitor. simpl. unfold collect at 1. simpl.
  set (st := Inspect_FuncType _ _ _).
  assert (Hst : exists mid,
             st = ("function " +:+ getFunctionSignature fn) :: mid).
  { subst st.
    assert (Ht : forall l,
               Inspect_FuncType (visitor collect) (Type_ fn) l =
               l ++ Inspect_FuncType (visitor collect) (Type_ fn) []).
    { intros l. apply (appends_sim (Inspect_FuncType (visitor collect))).
      intros l'. apply (Inspect_tree_sim _ _ _ (collect_sim l')). }
    rewrite Ht. unfold walkIdent. rewrite visit_visitor. simpl.
    destruct (Recv fn) as [recv|]; [|by eexists].
    rewrite visit_visitor. simpl.
    rewrite (foldl_appends (Inspect_Field (visitor collect))).
    - simpl. by eexists.
    - intros fd. apply appends_sim. intros l'.
      apply (Inspect_tree_sim _ _ _ (collect_sim l')). }
  destruct Hst as [mid ->]. exists mid.
  destruct (Body fn) as [body|]; [|by rewrite app_nil_r].
  rewrite visit_visitor. simpl.
  rewrite (foldl_appends (Inspect_Stmt (visitor collect)))
    by apply Inspect_Stmt_appends.
  done.
Qed.

Lemma rendered_here_TYPE specs :
  rendered_here (mkGenDecl TYPE specs) = omap structSignature specs.
Proof.
  unfold rendered_here. simpl.
  assert (H : forall l,
             foldl (fun st spec =>
                      match spec with
                      | TypeSpec name (StructType fields) =>
                          collect ("struct " +:+ getStructDefinition name fields) st
                      | _ => st
                      end) l specs
             = l ++ omap structSignature specs); [|apply (H [])].
  induction specs as [|sp specs IH]; intros l; simpl.
  - by rewrite app_nil_r.
  - rewrite IH. destruct sp as [?|? ? ?|name []]; simpl; try done.
    unfold collect. by rewrite <- app_assoc.
Qed.

Lemma rendered_here_VAR specs :
  rendered_here (mkGenDecl VAR specs) = omap varSignature specs.
Proof.
  unfold rendered_here. simpl.
  assert (H : forall l,
             foldl (fun st spec =>
                      match spec with
                      | ValueSpec names t values =>
                          collect ("var " +:+ getVariableDefinition
                                     Sprint SprintGoSyntax names t values) st
                      | _ => st
                      end) l specs
             = l ++ omap varSignature specs); [|apply (H [])].
  induction specs as [|sp specs IH]; intros l; simpl.
  - by rewrite app_nil_r.
  - rewrite IH. destruct sp as [?|? ? ?|name ?]; simpl; try done.
    unfold collect. by rewrite <- app_assoc.
Qed.

Lemma rendered_here_other tok specs :
  tok <> TYPE -> tok <> VAR -> rendered_here (mkGenDecl tok specs) = [].
Proof. intros H1 H2. unfold rendered_here. simpl. by destruct tok. Qed.

(** Whatever a top-level declaration renders is rendered by its file. *)
Lemma rendered_Decl_in file d s :
  d ∈ Decls file -> s ∈ rendered_Decl d -> s ∈ rendered file.
Proof.
  intros Hd Hs. rewrite rendered_Decls. apply list_elem_of_join.
  exists (rendered_Decl d). split; [done|]. by apply list_elem_of_fmap_2.
Qed.

End Trace.

(** ** One more occurrence *)

Lemma firsts_snoc seen l s :
  firsts seen (l ++ [s]) =
  firsts seen l ++
  if mapIndex seen s then [] else if decide (s ∈ l) then [] else [s].
Proof.
  revert seen. induction l as [|x l IH]; intros seen; simpl.
  - destruct (mapIndex seen s); [done|].
    destruct (decide (s ∈ [])) as [H%elem_of_nil|]; done.
  - destruct (mapIndex seen x) eqn:Hx.
    + rewrite IH. destruct (mapIndex seen s) eqn:Hs; [done|].
      assert (s <> x) by congruence.
      destruct (decide (s ∈ l)), (decide (s ∈ x :: l)) as [Hin|Hin]; try done.
      * exfalso. apply Hin, elem_of_cons. by right.
      * apply elem_of_cons in Hin as [?|?]; done.
    + simpl. rewrite IH, mapIndex_insert. f_equal.
      destruct (decide (x = s)) as [->|Hne].
      * destruct (mapIndex seen s); [done|].
        destruct (decide (s ∈ s :: l)) as [|Hin]; [done|].
        exfalso. apply Hin, elem_of_cons. by left.
      * destruct (mapIndex seen s); [done|].
        destruct (decide (s ∈ l)), (decide (s ∈ x :: l)) as [Hin|Hin]; try done.
        -- exfalso. apply Hin, elem_of_cons. by right.
        -- apply elem_of_cons in Hin as [?|?]; done.
Qed.

(** ** The report of a file and of a run *)

Section Claims.

Variable Sprint : Expr -> string.
Variable SprintGoSyntax : list Expr -> string.
Variable ParseFile : string -> string + File.

#[local] Abbreviation visitor := (visitor Sprint SprintGoSyntax).
#[local] Abbreviation rendered := (rendered Sprint SprintGoSyntax).
#[local] Abbreviation rendered_Decl := (rendered_Decl Sprint SprintGoSyntax).
#[local] Abbreviation rendered_GenDecl :=
  (rendered_GenDecl Sprint SprintGoSyntax).
#[local] Abbreviation rendered_Stmt := (rendered_Stmt Sprint SprintGoSyntax).
#[local] Abbreviation rendered_here := (rendered_here Sprint SprintGoSyntax).
#[local] Abbreviation varSignature := (varSignature Sprint SprintGoSyntax).
#[local] Abbreviation parseFile := (parseFile Sprint SprintGoSyntax ParseFile).
#[local] Abbreviation walkFn := (walkFn Sprint SprintGoSyntax ParseFile).
#[local] Abbreviation run := (run Sprint SprintGoSyntax ParseFile).

(** A rendered signature has its line in the report of the file. *)
Lemma rendered_line_in filename file w s :
  ParseFile filename = inr file -> s ∈ rendered file ->
  line filename s ∈ stdout (parseFile filename w).
Proof.
  intros Hparse Hs.
  rewrite (parseFile_parsed _ _ _ _ _ _ Hparse). simpl.
  apply elem_of_app. right. apply list_elem_of_fmap_2.
  apply elem_of_firsts. split; [done | apply mapIndex_empty].
Qed.

(** C1: deduplication is scoped per file.  Two files parsed one after
    the other print, after whatever was printed before, the lines of the
    first and then the lines of the second, each file's lines being its
    rendered signatures deduplicated from an empty set: a signature is
    kept at an occurrence exactly when it did not occur earlier in the
    same file, so every distinct signature of a file has exactly one
    line, and a signature that both files render has its line under each
    of the two paths. *)
Theorem C1_dedup_scoped_per_file p1 p2 f1 f2 w :
  ParseFile p1 = inr f1 -> ParseFile p2 = inr f2 ->
  stdout (parseFile p2 (parseFile p1 w)) =
    stdout w ++ (line p1 <$> firsts ∅ (rendered f1))
             ++ (line p2 <$> firsts ∅ (rendered f2))
  /\ (forall l s,
        firsts ∅ (l ++ [s]) = firsts ∅ l ++ if decide (s ∈ l) then [] else [s])
  /\ (forall p f,
        NoDup (line p <$> firsts ∅ (rendered f)) /\
        forall s, s ∈ firsts ∅ (rendered f) <-> s ∈ rendered f)
  /\ (forall s, s ∈ rendered f1 -> s ∈ rendered f2 ->
        line p1 s ∈ (line p1 <$> firsts ∅ (rendered f1)) /\
        line p2 s ∈ (line p2 <$> firsts ∅ (rendered f2))).
Proof.
  intros H1 H2. repeat split.
  - rewrite (parseFile_parsed _ _ _ _ _ _ H2), (parseFile_parsed _ _ _ _ _ _ H1).
    simpl. by rewrite <- app_assoc.
  - intros l s. rewrite firsts_snoc. by rewrite mapIndex_empty.
  - apply (NoDup_fmap_2 (line p)), NoDup_firsts.
  - by intros [? _]%elem_of_firsts.
  - intros Hs. apply elem_of_firsts. split; [done | apply mapIndex_empty].
  - apply list_elem_of_fmap_2, elem_of_firsts.
    split; [done | apply mapIndex_empty].
  - apply list_elem_of_fmap_2, elem_of_firsts.
    split; [done | apply mapIndex_empty].
Qed.



(** What a general declaration renders itself is rendered by the file,
    be the declaration at top level or a statement of a function body. *)
Lemma rendered_here_top file d s :
  Decl_Gen d ∈ Decls file -> s ∈ rendered_here d -> s ∈ rendered file.
Proof.
  intros Hd Hs. apply (rendered_Decl_in _ _ _ _ _ Hd).
  destruct (rendered_GenDecl_here Sprint SprintGoSyntax d) as [rest Hrest].
  unfold rendered_Decl, Inspect_Decl. fold (rendered_GenDecl d).
  rewrite Hrest. apply elem_of_app. by left.
Qed.


(** C2 (as amended): for a record declaration with name N and named
    fields F1..Fk in a top-level type group, the signature rendered is
    [struct type N struct { F1, F2, ... }], the field names joined by a
    comma and a space, and its line is in the report of the file. *)
Theorem C2_struct_signature filename file w specs name fields :
  ParseFile filename = inr file ->
  Decl_Gen (mkGenDecl TYPE specs) ∈ Decls file ->
  TypeSpec name (StructType fields) ∈ specs ->
  structSignature (TypeSpec name (StructType fields)) =
    Some ("struct type " +:+ name +:+ " struct { "
            +:+ strings.Join (fieldNames fields) ", " +:+ " }")
  /\ line filename ("struct type " +:+ name +:+ " struct { "
                      +:+ strings.Join (fieldNames fields) ", " +:+ " }")
     ∈ stdout (parseFile filename w).
Proof.
  intros Hparse Hd Hspec.
  assert (Hsig : structSignature (TypeSpec name (StructType fields)) =
                 Some ("struct type " +:+ name +:+ " struct { "
                         +:+ strings.Join (fieldNames fields) ", " +:+ " }")).
  { simpl. by rewrite getStructDefinition_eq. }
  split; [done|].
  apply (rendered_line_in _ _ _ _ Hparse).
  apply (rendered_here_top _ _ _ Hd).
  rewrite rendered_here_TYPE. apply list_elem_of_omap. eauto.
Qed.

(** C3: the callee renders [var N1, N2 TYPETEXT VALUETEXT] for a group
    with at least one name, and the signature handed to the printer has
    the keyword a second time in front: the line of a top-level variable
    group reads [var var N1, N2 TYPETEXT VALUETEXT]. *)
Theorem C3_var_keyword_twice filename file w specs n names t values :
  ParseFile filename = inr file ->
  Decl_Gen (mkGenDecl VAR specs) ∈ Decls file ->
  ValueSpec (n :: names) t values ∈ specs ->
  let typeStr := match t with
                 | Some t => removeTokenInfo (Sprint t)
                 | None => ""
                 end in
  let valueStr := match values with
                  | [] => ""
                  | _ :: _ => SprintGoSyntax values
                  end in
  getVariableDefinition Sprint SprintGoSyntax (n :: names) t values =
    "var " +:+ strings.Join (n :: names) ", " +:+ " " +:+ typeStr +:+ " "
           +:+ valueStr
  /\ line filename ("var var " +:+ strings.Join (n :: names) ", " +:+ " "
                      +:+ typeStr +:+ " " +:+ valueStr)
     ∈ stdout (parseFile filename w).
Proof.
  intros Hparse Hd Hspec typeStr valueStr.
  split; [apply getVariableDefinition_cons|].
  apply (rendered_line_in _ _ _ _ Hparse).
  apply (rendered_here_top _ _ _ Hd).
  rewrite rendered_here_VAR. apply list_elem_of_omap.
  eexists. split; [exact Hspec|].
  simpl. by rewrite getVariableDefinition_cons.
Qed.


(** C6 (as amended): the signature of a function declaration is
    [function NAME(PARAM1, PARAM2, ...) RESULT1, RESULT2, ...]: the
    parameter names joined by a comma and a space, and the result types
    that are plain identifiers joined by a comma and a space as well; an
    empty list renders as the empty string.  Its line is in the report
    of the file. *)
Theorem C6_function_signature filename file w fn :
  ParseFile filename = inr file ->
  Decl_Func fn ∈ Decls file ->
  let signature :=
    "function " +:+ Name fn +:+ "("
      +:+ strings.Join (fieldNames (FuncType_Params (Type_ fn))) ", " +:+ ") "
      +:+ strings.Join (resultNames (FuncType_Results (Type_ fn))) ", " in
  "function " +:+ getFunctionSignature fn = signature
  /\ (forall (State : Type) (emit : string -> State -> State) st,
        fst (visitor emit (Node_FuncDecl fn) st) = emit signature st)
  /\ strings.Join [] ", " = ""
  /\ line filename signature ∈ stdout (parseFile filename w).
Proof.
  intros Hparse Hfn signature.
  assert (Hsig : "function " +:+ getFunctionSignature fn = signature)
    by (subst signature; by rewrite getFunctionSignature_eq).
  repeat split; [done | | ].
  - intros emit st. simpl. by rewrite Hsig.
  - apply (rendered_line_in _ _ _ _ Hparse).
    apply (rendered_Decl_in _ _ _ _ _ Hfn).
    destruct (rendered_FuncDecl Sprint SprintGoSyntax fn) as [mid ->].
    rewrite Hsig. apply elem_of_cons. by left.
Qed.


Lemma parseFile_stderr filename w : stderr (parseFile filename w) = stderr w.
Proof.
  destruct (ParseFile filename) as [msg|file] eqn:Hparse.
  - by rewrite (parseFile_failed _ _ _ _ _ _ Hparse).
  - by rewrite (parseFile_parsed _ _ _ _ _ _ Hparse).
Qed.

Lemma walkFn_nil e w : snd (walkFn e w) = None.
Proof.
  unfold walkFn. destruct (err e); [done|].
  by destruct (negb (info_IsDir e) && strings.HasSuffix (info_Name e) ".go").
Qed.

Lemma walkFn_stderr e w : stderr (fst (walkFn e w)) = stderr w.
Proof.
  unfold walkFn. destruct (err e); [done|].
  destruct (negb (info_IsDir e) && strings.HasSuffix (info_Name e) ".go");
    [apply parseFile_stderr | done].
Qed.

Lemma walkFn_goFile e w :
  isGoFile e = true -> walkFn e w = (parseFile (path e) w, None).
Proof.
  unfold isGoFile, walkFn.
  intros [[Herr%bool_decide_eq_true Hdir]%andb_prop Hsuf]%andb_prop.
  by rewrite Herr, Hdir, Hsuf.
Qed.

(** The walk reaches every entry, and neither it nor [run] fails. *)
Lemma Walk_walkFn entries w :
  Walk entries walkFn w = (foldl (fun w e => fst (walkFn e w)) w entries, None).
Proof.
  revert w. induction entries as [|e entries IH]; intros w; simpl; [done|].
  pose proof (walkFn_nil e w) as Hnil.
  destruct (walkFn e w) as [w' r]; simpl in *. subst r. apply IH.
Qed.

Lemma run_eq entries w :
  run entries w = (foldl (fun w e => fst (walkFn e w)) w entries, None).
Proof. unfold run. by rewrite Walk_walkFn. Qed.

Lemma run_app before after w :
  fst (run (before ++ after) w) = fst (run after (fst (run before w))).
Proof. rewrite !run_eq. simpl. apply foldl_app. Qed.

(** C7 (as amended): when parsing a file fails, none of its declarations
    is reported and exactly one line, the path and the error, is printed
    on the standard output, the stream of the report; nothing is ever
    written to the error stream.  The run goes on with the entries that
    follow: over one file that fails and one that parses, in either
    order, the second is reported in full. *)
Theorem C7_parse_failure_isolated bad good msg file before after w :
  isGoFile bad = true -> ParseFile (path bad) = inl msg ->
  isGoFile good = true -> ParseFile (path good) = inr file ->
  let diagnostic := path bad +:+ ": " +:+ msg +:+ newline in
  let report := line (path good) <$> firsts ∅ (rendered file) in
  fst (walkFn bad w) =
    {| stdout := stdout w ++ [diagnostic]; stderr := stderr w |}
  /\ (forall entries w',
        stderr (fst (run entries w')) = stderr w' /\
        snd (run entries w') = None)
  /\ fst (run (before ++ bad :: after) w) =
     fst (run after (fst (walkFn bad (fst (run before w)))))
  /\ fst (run [bad; good] w) =
       {| stdout := stdout w ++ [diagnostic] ++ report; stderr := stderr w |}
  /\ fst (run [good; bad] w) =
       {| stdout := stdout w ++ report ++ [diagnostic]; stderr := stderr w |}.
Proof.
  intros Hbad Hfail Hgood Hok diagnostic report.
  assert (Hb : forall w', fst (walkFn bad w') =
                 {| stdout := stdout w' ++ [diagnostic];
                    stderr := stderr w' |}).
  { intros w'. rewrite (walkFn_goFile _ _ Hbad).
    apply (parseFile_failed _ _ _ _ _ _ Hfail). }
  assert (Hg : forall w', fst (walkFn good w') =
                 {| stdout := stdout w' ++ report; stderr := stderr w' |}).
  { intros w'. rewrite (walkFn_goFile _ _ Hgood).
    apply (parseFile_parsed _ _ _ _ _ _ Hok). }
  split; [apply Hb|]. split; [|split; [|split]].
  - intros entries w'. rewrite run_eq. split; [|done]. simpl.
    revert w'. induction entries as [|e entries IH]; intros w'; [done|].
    simpl. by rewrite IH, walkFn_stderr.
  - rewrite run_app. by rewrite !run_eq.
  - rewrite run_eq. simpl. rewrite Hg, Hb. simpl. by rewrite <- app_assoc.
  - rewrite run_eq. simpl. rewrite Hb, Hg. simpl. by rewrite <- app_assoc.
Qed.

(** C10: the signature of a function declaration is made of its name,
    the names of its own parameter list and its identifier results; the
    receiver has no part in it.  So two methods that agree on these
    three render the same signature, whatever their receivers. *)
Theorem C10_receiver_not_rendered (m1 m2 : FuncDecl) :
  Name m1 = Name m2 ->
  fieldNames (FuncType_Params (Type_ m1)) =
    fieldNames (FuncType_Params (Type_ m2)) ->
  resultNames (FuncType_Results (Type_ m1)) =
    resultNames (FuncType_Results (Type_ m2)) ->
  (forall fn,
     getFunctionSignature fn =
     Name fn +:+ "("
       +:+ strings.Join (fieldNames (FuncType_Params (Type_ fn))) ", "
       +:+ ") "
       +:+ strings.Join (resultNames (FuncType_Results (Type_ fn))) ", ")
  /\ (forall fn recv,
        getFunctionSignature
          (mkFuncDecl recv (Name fn) (Type_ fn) (Body fn)) =
        getFunctionSignature fn)
  /\ getFunctionSignature m1 = getFunctionSignature m2.
Proof.
  intros Hname Hparams Hresults. split; [|split].
  - apply getFunctionSignature_eq.
  - intros fn recv. by rewrite !getFunctionSignature_eq.
  - by rewrite !getFunctionSignature_eq, Hname, Hparams, Hresults.
Qed.

(** C9 (as amended): function declarations with plain names render the
    same signature exactly when they agree on the name, the parameter
    names and the identifier results; struct types exactly when they
    agree on the name and the field names; signatures of different kinds
    never coincide.  Declarations that differ elsewhere (receiver, types
    of parameters or fields, other results, body) share one signature,
    and deduplication keeps one line for them. *)
Theorem C9_signatures_distinct fn1 fn2 name1 fields1 name2 fields2 :
  plainFunc fn1 = true -> plainFunc fn2 = true ->
  plainStruct name1 fields1 = true -> plainStruct name2 fields2 = true ->
  ("function " +:+ getFunctionSignature fn1 =
   "function " +:+ getFunctionSignature fn2 <->
   Name fn1 = Name fn2 /\
   fieldNames (FuncType_Params (Type_ fn1)) =
     fieldNames (FuncType_Params (Type_ fn2)) /\
   resultNames (FuncType_Results (Type_ fn1)) =
     resultNames (FuncType_Results (Type_ fn2)))
  /\ ("struct " +:+ getStructDefinition name1 fields1 =
      "struct " +:+ getStructDefinition name2 fields2 <->
      name1 = name2 /\ fieldNames fields1 = fieldNames fields2)
  /\ (forall a b c : string,
        "function " +:+ a <> "struct " +:+ b /\
        "function " +:+ a <> "var " +:+ c /\
        "struct " +:+ b <> "var " +:+ c).
Proof.
  intros Hf1 Hf2 Hs1 Hs2. split; [|split].
  - split.
    + intros H%(inj (String.app "function ")).
      by apply getFunctionSignature_inj.
    + intros (Hname & Hparams & Hresults).
      by rewrite !getFunctionSignature_eq, Hname, Hparams, Hresults.
  - split.
    + intros H%(inj (String.app "struct ")).
      by apply getStructDefinition_inj.
    + intros [-> Hfields].
      by rewrite !getStructDefinition_eq, Hfields.
  - intros a b c. repeat split; discriminate.
Qed.

End Claims.

(** ** The properties on the sample directory *)

(** [a.go] and [b.go] both render [function Add(a, b) int]; [a.go]
    renders it twice.  Each file prints it once. *)
Lemma C1_dedup_scoped_per_file_witness :
  sampleParseFile "a.go" = inr file_a /\
  sampleParseFile "b.go" = inr file_b /\
  stdout (sample_parseFile "b.go" (sample_parseFile "a.go" quiet)) =
    stdout quiet ++ (line "a.go" <$> firsts ∅ (sample_rendered file_a))
                 ++ (line "b.go" <$> firsts ∅ (sample_rendered file_b)).
Proof.
  split; [reflexivity|]. split; [reflexivity|].
  apply (C1_dedup_scoped_per_file sampleSprint sampleSprintGoSyntax
           sampleParseFile "a.go" "b.go" file_a file_b quiet);
    reflexivity.
Defined.


(** The claim's own scenario: a file defining [struct Point { X, Y }]
    does not report [FILE: struct Point { X, Y }]. *)
Lemma C2_counterexample :
  sampleParseFile "c.go" = inr file_c /\
  Decl_Gen decl_Point ∈ Decls file_c /\
  (line "c.go" "struct Point { X, Y }"
     ∉ stdout (sample_parseFile "c.go" quiet)) /\
  (line "c.go" "struct type Point struct { X, Y }"
     ∈ stdout (sample_parseFile "c.go" quiet)).
Proof.
  split; [reflexivity|]. split; [repeat constructor|].
  split; apply (bool_decide_unpack _); vm_compute; exact I.
Qed.

Lemma C2_struct_signature_witness :
  sampleParseFile "c.go" = inr file_c /\
  Decl_Gen decl_Point ∈ Decls file_c /\
  line "c.go" "struct type Point struct { X, Y }"
    ∈ stdout (sample_parseFile "c.go" quiet).
Proof.
  assert (Hd : Decl_Gen decl_Point ∈ Decls file_c) by repeat constructor.
  split; [reflexivity|]. split; [exact Hd|].
  apply (C2_struct_signature sampleSprint sampleSprintGoSyntax
           sampleParseFile "c.go" file_c quiet
           [TypeSpec "Point" (StructType fields_Point)] "Point" fields_Point);
    [reflexivity | exact Hd | repeat constructor].
Defined.

Lemma C3_var_keyword_twice_witness :
  sampleParseFile "c.go" = inr file_c /\
  Decl_Gen decl_xy ∈ Decls file_c /\
  getVariableDefinition sampleSprint sampleSprintGoSyntax ["x"; "y"] int_ []
    = "var x, y int " /\
  line "c.go" "var var x, y int " ∈ stdout (sample_parseFile "c.go" quiet).
Proof.
  assert (Hd : Decl_Gen decl_xy ∈ Decls file_c) by repeat constructor.
  split; [reflexivity|]. split; [exact Hd|].
  apply (C3_var_keyword_twice sampleSprint sampleSprintGoSyntax
           sampleParseFile "c.go" file_c quiet
           [ValueSpec ["x"; "y"] int_ []] "x" ["y"] int_ []);
    [reflexivity | exact Hd | repeat constructor].
Defined.



(** [Div] has the results [int] and [error]: they are printed with a
    comma between them. *)
Lemma C6_counterexample :
  Decls file_e = [Decl_Func decl_Div] /\
  resultNames (FuncType_Results (Type_ decl_Div)) = ["int"; "error"] /\
  (line "e.go" "function Div(a, b) int error"
     ∉ stdout (sample_parseFile "e.go" quiet)) /\
  stdout (sample_parseFile "e.go" quiet) =
    [line "e.go" "function Div(a, b) int, error"].
Proof.
  split; [reflexivity|]. split; [reflexivity|].
  split; [apply (bool_decide_unpack _); vm_compute; exact I|].
  vm_compute. reflexivity.
Qed.

Lemma C6_function_signature_witness :
  sampleParseFile "e.go" = inr file_e /\
  Decl_Func decl_Div ∈ Decls file_e /\
  line "e.go" "function Div(a, b) int, error"
    ∈ stdout (sample_parseFile "e.go" quiet).
Proof.
  assert (Hfn : Decl_Func decl_Div ∈ Decls file_e) by repeat constructor.
  split; [reflexivity|]. split; [exact Hfn|].
  apply (C6_function_signature sampleSprint sampleSprintGoSyntax
           sampleParseFile "e.go" file_e quiet decl_Div eq_refl Hfn).
Defined.

(** A file that fails to parse puts its diagnostic on the standard
    output and leaves the error stream empty. *)
Lemma C7_counterexample :
  sampleParseFile "bad.go" =
    inl "bad.go:1:1: expected 'package', found 'EOF'" /\
  stdout (fst (sample_run [goFile "bad.go"] quiet)) =
    ["bad.go: bad.go:1:1: expected 'package', found 'EOF'" +:+ newline] /\
  stderr (fst (sample_run [goFile "bad.go"] quiet)) = [].
Proof. repeat split. Qed.

Lemma C7_parse_failure_isolated_witness :
  isGoFile (goFile "bad.go") = true /\
  sampleParseFile "bad.go" =
    inl "bad.go:1:1: expected 'package', found 'EOF'" /\
  isGoFile (goFile "a.go") = true /\
  sampleParseFile "a.go" = inr file_a /\
  fst (sample_run [goFile "bad.go"; goFile "a.go"] quiet) =
    {| stdout :=
         stdout quiet
         ++ ["bad.go: bad.go:1:1: expected 'package', found 'EOF'" +:+ newline]
         ++ (line "a.go" <$> firsts ∅ (sample_rendered file_a));
       stderr := stderr quiet |}.
Proof.
  split; [reflexivity|]. split; [reflexivity|].
  split; [reflexivity|]. split; [reflexivity|].
  apply (C7_parse_failure_isolated sampleSprint sampleSprintGoSyntax
           sampleParseFile (goFile "bad.go") (goFile "a.go")
           "bad.go:1:1: expected 'package', found 'EOF'" file_a [] [] quiet);
    reflexivity.
Defined.

(** The two methods [Len] of [b.go] differ in their receivers and share
    one signature: the file has one line for the two. *)
Lemma C9_counterexample :
  decl_Len "A" <> decl_Len "B" /\
  Decls file_b =
    [Decl_Func decl_Add; Decl_Func (decl_Len "A"); Decl_Func (decl_Len "B")] /\
  "function " +:+ getFunctionSignature (decl_Len "A") =
  "function " +:+ getFunctionSignature (decl_Len "B") /\
  stdout (sample_parseFile "b.go" quiet) =
    [line "b.go" "function Add(a, b) int";
     line "b.go" "var var sum int ";
     line "b.go" "struct type pair struct { l, r }";
     line "b.go" "function Len() int"].
Proof.
  split; [discriminate|]. split; [reflexivity|]. split; [reflexivity|].
  vm_compute. reflexivity.
Qed.

Lemma C9_signatures_distinct_witness :
  plainFunc decl_Add = true /\ plainFunc decl_Div = true /\
  plainStruct "Point" fields_Point = true /\
  plainStruct "pair" [mkField ["l"; "r"] int_] = true /\
  "function " +:+ getFunctionSignature decl_Add <>
  "function " +:+ getFunctionSignature decl_Div.
Proof.
  split; [reflexivity|]. split; [reflexivity|].
  split; [reflexivity|]. split; [reflexivity|].
  intros H.
  apply (C9_signatures_distinct decl_Add decl_Div
           "Point" fields_Point "pair" [mkField ["l"; "r"] int_]
           eq_refl eq_refl eq_refl eq_refl) in H.
  destruct H as [H _]. discriminate H.
Defined.

Lemma C10_receiver_not_rendered_witness :
  Name (decl_Len "A") = Name (decl_Len "B") /\
  Recv (decl_Len "A") <> Recv (decl_Len "B") /\
  getFunctionSignature (decl_Len "A") = getFunctionSignature (decl_Len "B").
Proof.
  split; [reflexivity|]. split; [discriminate|].
  apply (C10_receiver_not_rendered (decl_Len "A") (decl_Len "B"));
    reflexivity.
Defined.

(** ** Prefixes and suffixes *)

Lemma substring_0_append s t :
  String.substring 0 (String.length s) (s +:+ t) = s.
Proof. induction s as [|c s IH]; simpl; [by destruct t | by rewrite IH]. Qed.

Lemma substring_0_length t : String.substring 0 (String.length t) t = t.
Proof. induction t as [|c t IH]; simpl; [done | by rewrite IH]. Qed.

Lemma substring_skip s t m :
  String.substring (String.length s) m (s +:+ t) = String.substring 0 m t.
Proof. induction s as [|c s IH]; simpl; [done | apply IH]. Qed.

Lemma append_cons c (a b : string) : String c a +:+ b = String c (a +:+ b).
Proof. done. Qed.

Lemma substring_split s i :
  i <= String.length s ->
  s = String.substring 0 i s
      +:+ String.substring i (String.length s - i) s.
Proof.
  revert i. induction s as [|c s IH]; intros [|i] Hi; simpl in *.
  - done.
  - lia.
  - by rewrite substring_0_length.
  - rewrite append_cons. f_equal. apply IH. lia.
Qed.

Lemma prefix_append p s : String.prefix p (p +:+ s) = true.
Proof.
  induction p as [|c p IH]; simpl; [by destruct s|].
  destruct (Ascii.ascii_dec c c); [apply IH | done].
Qed.

Lemma HasSuffix_append base suf : strings.HasSuffix (base +:+ suf) suf = true.
Proof.
  unfold strings.HasSuffix. rewrite length_append.
  destruct (decide (String.length suf <= String.length base + String.length suf))
    as [_|Hle]; [|lia].
  replace (String.length base + String.length suf - String.length suf)
    with (String.length base) by lia.
  rewrite substring_skip, substring_0_length. apply String.eqb_refl.
Qed.

Lemma HasSuffix_inv s suf :
  strings.HasSuffix s suf = true -> exists base, s = base +:+ suf.
Proof.
  unfold strings.HasSuffix.
  destruct (decide (String.length suf <= String.length s)) as [Hle|]; [|done].
  intros Heq%String.eqb_eq.
  set (i := String.length s - String.length suf) in *.
  exists (String.substring 0 i s).
  assert (Hi : i <= String.length s) by lia.
  assert (Hk : String.length s - i = String.length suf) by lia.
  pose proof (substring_split s i Hi) as Hs.
  by rewrite Hk, Heq in Hs.
Qed.

Lemma TrimSuffix_append base suf : strings.TrimSuffix (base +:+ suf) suf = base.
Proof.
  unfold strings.TrimSuffix. rewrite HasSuffix_append, length_append.
  replace (String.length base + String.length suf - String.length suf)
    with (String.length base) by lia.
  apply substring_0_append.
Qed.

Lemma TrimPrefix_append p s : strings.TrimPrefix (p +:+ s) p = s.
Proof.
  unfold strings.TrimPrefix, strings.HasPrefix.
  rewrite prefix_append, length_append.
  replace (String.length p + String.length s - String.length p)
    with (String.length s) by lia.
  by rewrite substring_skip, substring_0_length.
Qed.

Lemma append_assoc (a b c : string) : (a +:+ b) +:+ c = a +:+ b +:+ c.
Proof. induction a as [|x a IH]; [done | by rewrite !append_cons, IH]. Qed.

Lemma append_last_inj s1 s2 a b :
  s1 +:+ String a "" = s2 +:+ String b "" -> s1 = s2 /\ a = b.
Proof.
  revert s2. induction s1 as [|c s1 IH]; intros [|c' s2] H; simpl in H.
  - by injection H.
  - injection H as _ H. by destruct s2.
  - injection H as _ H. by destruct s1.
  - injection H as -> H. destruct (IH _ H) as [-> ->]. done.
Qed.

(** X1: [removeTokenInfo] takes the wrapper [%!s(] ... [>] off a text,
    whatever stands between the two. *)
Theorem X1_removeTokenInfo_unwraps (s : string) :
  removeTokenInfo ("%!s(" +:+ s +:+ ">") = s.
Proof.
  unfold removeTokenInfo.
  rewrite <- (append_assoc "%!s(" s ">"), TrimSuffix_append.
  apply TrimPrefix_append.
Qed.

(** X2: on a text of the form the comment of [removeTokenInfo] gives,
    [%!s(] ... [)], only the prefix goes: the closing parenthesis
    stays. *)
Theorem X2_removeTokenInfo_keeps_parenthesis (s : string) :
  removeTokenInfo ("%!s(" +:+ s +:+ ")") = s +:+ ")".
Proof.
  unfold removeTokenInfo, strings.TrimSuffix.
  destruct (strings.HasSuffix ("%!s(" +:+ s +:+ ")") ">") eqn:Hsuf.
  - apply HasSuffix_inv in Hsuf as [base Hbase].
    rewrite <- (append_assoc "%!s(" s ")") in Hbase.
    by apply append_last_inj in Hbase as [_ ?].
  - apply TrimPrefix_append.
Qed.

Lemma HasSuffix_occurs c s :
  strings.HasSuffix s (String c "") = true -> occurs c s = true.
Proof.
  intros [base ->]%HasSuffix_inv. rewrite occurs_append. simpl.
  destruct (decide (c = c)); [apply orb_true_r | done].
Qed.

Lemma prefix_inv p s : String.prefix p s = true -> exists t, s = p +:+ t.
Proof.
  revert s. induction p as [|c p IH]; intros s H; [by exists s|].
  destruct s as [|c' s]; simpl in H; [done|].
  destruct (Ascii.ascii_dec c c') as [->|]; [|done].
  destruct (IH _ H) as [t ->]. by exists t.
Qed.

(** X3: a text with neither [>] nor [(] in it, as the name of a type
    printed for an identifier, comes back unchanged. *)
Theorem X3_removeTokenInfo_plain (s : string) :
  occurs ">" s = false -> occurs "(" s = false -> removeTokenInfo s = s.
Proof.
  intros Hgt Hpar. unfold removeTokenInfo, strings.TrimSuffix.
  destruct (strings.HasSuffix s ">") eqn:Hsuf.
  { apply HasSuffix_occurs in Hsuf. congruence. }
  unfold strings.TrimPrefix, strings.HasPrefix.
  destruct (String.prefix "%!s(" s) eqn:Hpre; [|done].
  apply prefix_inv in Hpre as [t ->].
  rewrite occurs_append in Hpar. simpl in Hpar. done.
Qed.

Lemma X3_removeTokenInfo_plain_witness :
  occurs ">" "int" = false /\ occurs "(" "int" = false /\
  removeTokenInfo "int" = "int".
Proof.
  split; [reflexivity|]. split; [reflexivity|].
  apply (X3_removeTokenInfo_plain "int"); reflexivity.
Defined.

(** ** The walk, entry by entry *)

Section Extras.

Variable Sprint : Expr -> string.
Variable SprintGoSyntax : list Expr -> string.
Variable ParseFile : string -> string + File.

#[local] Abbreviation visitor := (visitor Sprint SprintGoSyntax).
#[local] Abbreviation rendered := (rendered Sprint SprintGoSyntax).
#[local] Abbreviation parseFile := (parseFile Sprint SprintGoSyntax ParseFile).
#[local] Abbreviation walkFn := (walkFn Sprint SprintGoSyntax ParseFile).
#[local] Abbreviation run := (run Sprint SprintGoSyntax ParseFile).
#[local] Abbreviation entryLines :=
  (entryLines Sprint SprintGoSyntax ParseFile).

(** X4: what the function given to the walk does with an entry.  An
    entry that could not be reached has its error printed and is not
    parsed, whatever its name; a directory is passed over, whatever its
    name; a file is parsed, under its path, exactly when its name is
    some text followed by [.go]; and the function returns nil in every
    case. *)
Theorem X4_walkFn_dispatch (e : WalkEntry) (w : Output) :
  (forall msg, err e = Some msg -> walkFn e w = (Println msg w, None))
  /\ (err e = None -> info_IsDir e = true -> walkFn e w = (w, None))
  /\ (err e = None -> info_IsDir e = false ->
      (exists base, info_Name e = base +:+ ".go") ->
      walkFn e w = (parseFile (path e) w, None))
  /\ (err e = None ->
      ~ (exists base, info_Name e = base +:+ ".go") ->
      walkFn e w = (w, None)).
Proof.
  unfold walkFn. split; [|split; [|split]].
  - by intros msg ->.
  - by intros -> ->.
  - intros -> -> [base ->]. by rewrite HasSuffix_append.
  - intros -> Hname.
    destruct (strings.HasSuffix (info_Name e) ".go") eqn:Hsuf.
    + by apply HasSuffix_inv in Hsuf.
    + by rewrite andb_false_r.
Qed.

Lemma parseFile_appends filename w :
  parseFile filename w =
  {| stdout := stdout w ++ stdout (parseFile filename (mkOutput [] []));
     stderr := stderr w |}.
Proof.
  destruct (ParseFile filename) as [msg|file] eqn:Hparse.
  - by rewrite !(parseFile_failed _ _ _ _ _ _ Hparse).
  - by rewrite !(parseFile_parsed _ _ _ _ _ _ Hparse).
Qed.

Lemma walkFn_appends e w :
  fst (walkFn e w) =
  {| stdout := stdout w ++ entryLines e; stderr := stderr w |}.
Proof.
  unfold entryLines, walkFn.
  destruct (err e); [done|].
  destruct (negb (info_IsDir e) && strings.HasSuffix (info_Name e) ".go");
    simpl.
  - apply parseFile_appends.
  - rewrite app_nil_r. by destruct w.
Qed.

(** X5: a run prints, after what was printed before it, what each entry
    prints on its own, entry after entry: no entry changes what another
    prints, nothing printed is taken back, and the error stream is
    left as it was. *)
Theorem X5_run_entry_by_entry (entries : list WalkEntry) (w : Output) :
  fst (run entries w) =
  {| stdout := stdout w ++ mjoin (entryLines <$> entries);
     stderr := stderr w |}.
Proof.
  rewrite (run_eq Sprint SprintGoSyntax ParseFile). simpl.
  revert w. induction entries as [|e entries IH]; intros w; simpl.
  - rewrite app_nil_r. by destruct w.
  - rewrite IH, walkFn_appends. simpl. by rewrite <- app_assoc.
Qed.

(** ** The printer and its map *)

(** X7: a second call of [processIfNotProcessed] with the same signature
    changes nothing, neither the map nor the output. *)
Theorem X7_processIfNotProcessed_idempotent filename s (p : Printer) :
  processIfNotProcessed filename s (processIfNotProcessed filename s p) =
  processIfNotProcessed filename s p.
Proof.
  unfold processIfNotProcessed at 2 3.
  destruct (mapIndex (processed p) s) eqn:Hs; simpl.
  - unfold processIfNotProcessed. by rewrite Hs.
  - unfold processIfNotProcessed. simpl.
    rewrite mapIndex_insert. by destruct (decide (s = s)).
Qed.

Lemma foldl_processed filename l p s :
  mapIndex
    (processed (foldl (fun p s => processIfNotProcessed filename s p) p l)) s
  = true
  <-> mapIndex (processed p) s = true \/ s ∈ l.
Proof.
  revert p. induction l as [|x l IH]; intros p; simpl.
  - split; [by left | by intros [?|?%elem_of_nil]].
  - rewrite IH, processIfNotProcessed_processed, elem_of_cons.
    destruct (mapIndex (processed p) x) eqn:Hx.
    + split; [tauto|]. intros [?|[->|?]]; auto.
    + rewrite mapIndex_insert.
      destruct (decide (x = s)) as [->|Hne].
      * split; [auto | intros _; by left].
      * split; [tauto|]. intros [?|[?|?]]; [auto | congruence | auto].
Qed.

(** X8: when the traversal of a file ends, the [processed] map marks a
    signature exactly when the traversal rendered it, which is exactly
    when its line was printed for the file; and whatever was printed
    before the file is still in front. *)
Theorem X8_processed_marks_printed filename file (w : Output) (s : string) :
  let p := Inspect (visitor (processIfNotProcessed filename)) file
             {| processed := ∅; out := w |} in
  (mapIndex (processed p) s = true <-> s ∈ rendered file)
  /\ (mapIndex (processed p) s = true <->
      line filename s ∈ drop (length (stdout w)) (stdout (out p)))
  /\ take (length (stdout w)) (stdout (out p)) = stdout w.
Proof.
  intros p. subst p. rewrite Inspect_rendered.
  rewrite foldl_processed, foldl_processIfNotProcessed. simpl.
  rewrite mapIndex_empty, drop_app_length, take_app_length.
  rewrite (list_elem_of_fmap_inj (line filename)), elem_of_firsts.
  rewrite mapIndex_empty.
  split; [|split; [|done]]; split; try tauto; by intros [?|?].
Qed.

(** X9: the number of lines a file adds to the report is the number of
    distinct signatures the traversal renders over it. *)
Theorem X9_lines_count_distinct filename file (w : Output) :
  ParseFile filename = inr file ->
  length (stdout (parseFile filename w)) =
  length (stdout w) + size (list_to_set (rendered file) : gset string).
Proof.
  intros Hparse. rewrite (parseFile_parsed _ _ _ _ _ _ Hparse). simpl.
  rewrite length_app, length_fmap. f_equal.
  rewrite <- (size_list_to_set (C := gset string) (firsts ∅ (rendered file)))
    by apply NoDup_firsts.
  f_equal. apply set_eq. intros s.
  rewrite !elem_of_list_to_set, elem_of_firsts, mapIndex_empty. tauto.
Qed.

(** ** Every node the traversal visits *)

Lemma rendered_visited file :
  rendered file =
  mjoin ((fun n => fst (visitor collect n [])) <$> visited file).
Proof.
  set (sigs := fun n : Node => fst (visitor collect n [])).
  apply (Inspect_sim (visitor collect) record
           (fun a b => a = mjoin (sigs <$> b))); [|done].
  intros n a b ->. split; [|done].
  change (fst (record n b)) with (b ++ [n]).
  rewrite fmap_app, join_app.
  change (mjoin (sigs <$> [n])) with (sigs n ++ []).
  rewrite app_nil_r.
  rewrite <- (app_nil_r (mjoin (sigs <$> b))) at 1.
  apply (visitor_collect_app Sprint SprintGoSyntax).
Qed.

(** X10: whatever the callback renders at a node the traversal visits,
    at any depth of the tree (a function body, a block inside it, a
    function literal in an initialiser), has its line in the report of
    the file. *)
Theorem X10_every_visited_node_reported filename file (w : Output) n s :
  ParseFile filename = inr file ->
  n ∈ visited file ->
  s ∈ fst (visitor collect n []) ->
  line filename s ∈ stdout (parseFile filename w).
Proof.
  intros Hparse Hn Hs.
  apply (rendered_line_in _ _ _ _ _ _ _ Hparse).
  rewrite rendered_visited. apply list_elem_of_join.
  exists (fst (visitor collect n [])). split; [done|].
  by apply (list_elem_of_fmap_2 (fun n => fst (visitor collect n []))).
Qed.

End Extras.

(** ** What a run reads, and the exit code *)

Lemma walkFn_ext Sprint SprintGoSyntax
    (ParseFile ParseFile' : string -> string + File) e w :
  (isGoFile e = true -> ParseFile' (path e) = ParseFile (path e)) ->
  walkFn Sprint SprintGoSyntax ParseFile' e w =
  walkFn Sprint SprintGoSyntax ParseFile e w.
Proof.
  unfold isGoFile, walkFn. destruct (err e); [done|].
  destruct (negb (info_IsDir e)) eqn:Hdir; [|done].
  destruct (strings.HasSuffix (info_Name e) ".go") eqn:Hsuf; [|done].
  intros H. simpl. unfold parseFile. by rewrite H.
Qed.

(** X6: a run reads the files its entries name and no other.  Two
    parsers that agree on the paths of the entries that are readable Go
    files give the same run: a directory, a file of another name and an
    entry that could not be reached are never parsed. *)
Theorem X6_run_parses_go_files_only Sprint SprintGoSyntax
    (ParseFile ParseFile' : string -> string + File)
    (entries : list WalkEntry) (w : Output) :
  (forall e, e ∈ entries -> isGoFile e = true ->
             ParseFile' (path e) = ParseFile (path e)) ->
  run Sprint SprintGoSyntax ParseFile' entries w =
  run Sprint SprintGoSyntax ParseFile entries w.
Proof.
  intros H. rewrite !run_eq. f_equal.
  revert w. induction entries as [|e entries IH]; intros w; simpl; [done|].
  rewrite (walkFn_ext Sprint SprintGoSyntax ParseFile ParseFile' e w).
  - apply IH. intros e' He'. apply H, elem_of_cons. by right.
  - apply H, elem_of_cons. by left.
Qed.

(** X11: the exit code of [Execute] is 0 exactly when the three steps
    before the run return nil, and 1 otherwise; nothing in the entries,
    neither a file that fails to parse nor an entry that cannot be
    reached, changes it.  [slog.Error] is never called: the outcome is
    the same whatever it would do.  With exit code 1 nothing was
    scanned: the outcome is the same for any other entries. *)
Theorem X11_Execute_exit_code Sprint SprintGoSyntax ParseFile
    (parseFlags setLogLevel setupLogger : Output -> Output * option string)
    (slog_Error : string -> string -> Output -> Output)
    (entries : list WalkEntry) (w : Output) :
  let Execute :=
    Execute Sprint SprintGoSyntax ParseFile parseFlags setLogLevel
            setupLogger in
  (forall slog_Error', Execute slog_Error' entries w
                       = Execute slog_Error entries w)
  /\ (snd (Execute slog_Error entries w) = 0%Z \/
      snd (Execute slog_Error entries w) = 1%Z)
  /\ (snd (Execute slog_Error entries w) = 0%Z <->
      exists w1 w2 w3,
        parseFlags w = (w1, None) /\ setLogLevel w1 = (w2, None) /\
        setupLogger w2 = (w3, None) /\
        fst (Execute slog_Error entries w) =
        fst (run Sprint SprintGoSyntax ParseFile entries w3))
  /\ (snd (Execute slog_Error entries w) = 1%Z ->
      forall entries', Execute slog_Error entries' w
                       = Execute slog_Error entries w).
Proof.
  intros Exec. subst Exec. unfold Execute.
  destruct (parseFlags w) as [w1 [e1|]].
  { split; [done|]. split; [by right|]. split; [|done].
    split; [done|]. intros (? & ? & ? & Heq & _). by simplify_eq. }
  destruct (setLogLevel w1) as [w2 [e2|]] eqn:H2.
  { split; [done|]. split; [by right|]. split; [|done].
    split; [done|]. intros (? & ? & ? & Heq & Heq' & _).
    injection Heq as <-. congruence. }
  destruct (setupLogger w2) as [w3 [e3|]] eqn:H3.
  { split; [done|]. split; [by right|]. split; [|done].
    split; [done|].
    intros (? & ? & ? & Heq & Heq' & Heq'' & _).
    injection Heq as <-. rewrite H2 in Heq'. injection Heq' as <-.
    congruence. }
  rewrite run_eq. split; [done|]. split; [by left|]. split; [|done].
  split; [|done]. intros _. exists w1, w2, w3. by rewrite run_eq.
Qed.

(** ** Fields without names *)

Lemma fieldNames_app l1 l2 : fieldNames (l1 ++ l2) = fieldNames l1 ++ fieldNames l2.
Proof. unfold fieldNames. by rewrite fmap_app, join_app. Qed.

Lemma fieldNames_unnamed l :
  Forall (fun fd => Field_Names fd = []) l -> fieldNames l = [].
Proof.
  induction 1 as [|fd l Hfd _ IH]; [done|].
  change (fieldNames (fd :: l)) with (Field_Names fd ++ fieldNames l).
  by rewrite Hfd, IH.
Qed.

(** X12: a parameter without a name and a result whose type is not a
    plain identifier leave no trace in the signature of a function, and
    neither do the receiver and the body: with or without them the
    signature is the same. *)
Theorem X12_signature_drops_unnamed
    recv recv' name ps1 ps2 ptype rs1 rs2 rnames rtype body body' :
  (forall n, rtype <> Some (Ident n)) ->
  getFunctionSignature
    (mkFuncDecl recv name
       (mkFuncType (ps1 ++ mkField [] ptype :: ps2)
                   (Some (rs1 ++ mkField rnames rtype :: rs2)))
       body)
  = getFunctionSignature
      (mkFuncDecl recv' name (mkFuncType (ps1 ++ ps2) (Some (rs1 ++ rs2)))
         body').
Proof.
  intros Hrtype. rewrite !getFunctionSignature_eq. simpl.
  rewrite !fieldNames_app, !omap_app. simpl.
  assert (Hnone : identResult (mkField rnames rtype) = None).
  { unfold identResult. simpl. destruct rtype as [[]|]; try done.
    by destruct (Hrtype Name0). }
  by rewrite Hnone.
Qed.

(** X13: a struct whose fields are all embedded, and so a struct without
    fields, is rendered [type N struct {  }], nothing between the two
    spaces inside the braces; an embedded field among named ones leaves
    no trace. *)
Theorem X13_struct_without_names name fields l1 l2 t :
  Forall (fun fd => Field_Names fd = []) fields ->
  getStructDefinition name fields = "type " +:+ name +:+ " struct {  }"
  /\ getStructDefinition name (l1 ++ mkField [] t :: l2) =
     getStructDefinition name (l1 ++ l2).
Proof.
  intros Hfields. rewrite !getStructDefinition_eq. split.
  - by rewrite (fieldNames_unnamed _ Hfields).
  - by rewrite !fieldNames_app.
Qed.

(** ** The shape of a line *)

Lemma visitor_signature_shape Sprint SprintGoSyntax n s :
  s ∈ fst (visitor Sprint SprintGoSyntax collect n []) ->
  exists rest,
    s = "function " +:+ rest \/ s = "struct type " +:+ rest \/
    s = "var " +:+ rest.
Proof.
  destruct n as [|?|fn|[tok specs]|?|?|?|?|?|?];
    try (by intros ?%elem_of_nil).
  - intros ->%list_elem_of_singleton. eauto.
  - fold (rendered_here Sprint SprintGoSyntax (mkGenDecl tok specs)).
    destruct tok.
    + rewrite rendered_here_other by done. by intros ?%elem_of_nil.
    + rewrite rendered_here_other by done. by intros ?%elem_of_nil.
    + rewrite rendered_here_TYPE.
      intros (sp & _ & Hsp)%list_elem_of_omap.
      destruct sp as [?|? ? ?|name []]; try done.
      simpl in Hsp. rewrite getStructDefinition_eq in Hsp.
      injection Hsp as <-. eexists. right. left. reflexivity.
    + rewrite rendered_here_VAR.
      intros (sp & _ & Hsp)%list_elem_of_omap.
      destruct sp as [?|names t values|? ?]; try done.
      simpl in Hsp. injection Hsp as <-. eauto.
Qed.

(** X14: every line the program adds to the report for a file that
    parses is the path, a colon and a space, a signature, and a line
    feed, and the signature starts with [function ], [struct type ] or
    [var ]: nothing else is printed for such a file. *)
Theorem X14_line_shape Sprint SprintGoSyntax ParseFile filename file
    (w : Output) (text : string) :
  ParseFile filename = inr file ->
  text ∈ stdout (parseFile Sprint SprintGoSyntax ParseFile filename w) ->
  text ∈ stdout w \/
  exists rest,
    text = filename +:+ ": function " +:+ rest +:+ newline \/
    text = filename +:+ ": struct type " +:+ rest +:+ newline \/
    text = filename +:+ ": var " +:+ rest +:+ newline.
Proof.
  intros Hparse. rewrite (parseFile_parsed _ _ _ _ _ _ Hparse). simpl.
  intros [?|Hin]%elem_of_app; [by left|]. right.
  apply list_elem_of_fmap in Hin as (s & -> & Hs).
  apply elem_of_firsts in Hs as [Hs _].
  rewrite rendered_visited in Hs.
  apply list_elem_of_join in Hs as (l & Hs & Hl).
  apply list_elem_of_fmap in Hl as (n & -> & _).
  apply visitor_signature_shape in Hs as [rest [->| [->| ->]]];
    exists rest; unfold line; auto.
Qed.

(** ** The further properties on the sample directory *)

Lemma X6_run_parses_go_files_only_witness :
  sampleParseFile' "g.go" <> sampleParseFile "g.go" /\
  run sampleSprint sampleSprintGoSyntax sampleParseFile'
      [goFile "a.go"; goDir "g.go"] quiet =
  run sampleSprint sampleSprintGoSyntax sampleParseFile
      [goFile "a.go"; goDir "g.go"] quiet.
Proof.
  split; [discriminate|].
  apply (X6_run_parses_go_files_only sampleSprint sampleSprintGoSyntax
           sampleParseFile sampleParseFile' [goFile "a.go"; goDir "g.go"]
           quiet).
  intros e He Hgo.
  apply elem_of_cons in He as [->|He]; [reflexivity|].
  apply list_elem_of_singleton in He as ->. discriminate Hgo.
Defined.

Lemma X9_lines_count_distinct_witness :
  sampleParseFile "a.go" = inr file_a /\
  length (sample_rendered file_a) = 8 /\
  length (stdout (sample_parseFile "a.go" quiet)) =
  length (stdout quiet)
  + size (list_to_set (sample_rendered file_a) : gset string).
Proof.
  split; [reflexivity|]. split; [reflexivity|].
  apply (X9_lines_count_distinct sampleSprint sampleSprintGoSyntax
           sampleParseFile "a.go" file_a quiet).
  reflexivity.
Defined.

(** The variable [deep] of [g.go] stands in a block of a function
    literal of an initialiser, and is reported. *)
Lemma X10_every_visited_node_reported_witness :
  sampleParseFile' "g.go" = inr file_g /\
  Node_GenDecl local_deep ∈ visited file_g /\
  line "g.go" "var var deep int "
    ∈ stdout (parseFile sampleSprint sampleSprintGoSyntax sampleParseFile'
                "g.go" quiet).
Proof.
  assert (Hn : Node_GenDecl local_deep ∈ visited file_g).
  { apply list_elem_of_In. vm_compute.
    repeat (first [left; reflexivity | right]). }
  split; [reflexivity|]. split; [exact Hn|].
  apply (X10_every_visited_node_reported sampleSprint sampleSprintGoSyntax
           sampleParseFile' "g.go" file_g quiet (Node_GenDecl local_deep)
           "var var deep int " eq_refl Hn).
  repeat constructor.
Defined.

Lemma X12_signature_drops_unnamed_witness :
  (forall n, Some (StarExpr (Ident "T")) <> Some (Ident n)) /\
  getFunctionSignature
    (mkFuncDecl (Some [mkField ["r"] int_]) "Get"
       (mkFuncType ([mkField ["k"] int_] ++ mkField [] int_ :: [])
                   (Some ([] ++ mkField [] (Some (StarExpr (Ident "T")))
                             :: [mkField [] int_])))
       (Some []))
  = getFunctionSignature
      (mkFuncDecl None "Get"
         (mkFuncType ([mkField ["k"] int_] ++ [])
                     (Some ([] ++ [mkField [] int_])))
         None).
Proof.
  split; [discriminate|].
  apply (X12_signature_drops_unnamed (Some [mkField ["r"] int_]) None "Get"
           [mkField ["k"] int_] [] int_ [] [mkField [] int_] []
           (Some (StarExpr (Ident "T"))) (Some []) None).
  discriminate.
Defined.

Lemma X13_struct_without_names_witness :
  Forall (fun fd => Field_Names fd = []) [mkField [] int_] /\
  getStructDefinition "Wrapper" [mkField [] int_] = "type Wrapper struct {  }".
Proof.
  assert (H : Forall (fun fd => Field_Names fd = []) [mkField [] int_])
    by (repeat constructor).
  split; [exact H|].
  apply (X13_struct_without_names "Wrapper" [mkField [] int_] [] [] None H).
Defined.

Lemma X14_line_shape_witness :
  sampleParseFile "e.go" = inr file_e /\
  (line "e.go" "function Div(a, b) int, error"
     ∈ stdout (sample_parseFile "e.go" quiet)) /\
  (line "e.go" "function Div(a, b) int, error" ∈ stdout quiet \/
   exists rest,
     line "e.go" "function Div(a, b) int, error"
       = "e.go" +:+ ": function " +:+ rest +:+ newline \/
     line "e.go" "function Div(a, b) int, error"
       = "e.go" +:+ ": struct type " +:+ rest +:+ newline \/
     line "e.go" "function Div(a, b) int, error"
       = "e.go" +:+ ": var " +:+ rest +:+ newline).
Proof.
  assert (Hin : line "e.go" "function Div(a, b) int, error"
                  ∈ stdout (sample_parseFile "e.go" quiet))
    by (repeat constructor).
  split; [reflexivity|]. split; [exact Hin|].
  apply (X14_line_shape sampleSprint sampleSprintGoSyntax sampleParseFile
           "e.go" file_e quiet _ eq_refl Hin).
Defined.

(** ** Variable groups of a parsed file *)




